(** * asyncstdlib: functools (reduce, cached_property, lru_cache) and heapq.merge

    A shallow embedding of [asyncstdlib/functools.py] and
    [asyncstdlib/heapq.py].  Python objects are a small inductive universe,
    exceptions are values of [exn], and a coroutine is a state-passing
    function returning a [result].  Asynchronous iterables are finite lists;
    an iterator over one is the list of items it has not produced yet. *)

From stdpp Require Import gmap strings list sorting.
From Stdlib Require Import ZArith Lia.

Open Scope Z_scope.
Open Scope nat_scope.

(** ** Python objects, exceptions and outcomes *)

Module Core.

(** The objects the modelled functions handle.  [PSentinel] is an instance of
    [_core.Sentinel], [PAwaitableValue] an instance of
    [functools.AwaitableValue] and [PCachedProperty] the descriptor object
    itself. *)
#[warnings="-register-all"]
Inductive pyobj : Type :=
| PNone
| PInt (z : Z)
| PStr (s : string)
| PList (items : list pyobj)
| PSentinel (name : string)
| PAwaitableValue (value : pyobj)
| PCachedProperty (name : string).

Inductive exn : Type :=
| TypeError (msg : string)
| IndexError (msg : string)
| KeyError (key : string)
| StopAsyncIteration
| UserError (tag : string).

(** What a call or an [await] gives: a value, or a raised exception. *)
Inductive result (A : Type) : Type :=
| Ok (a : A)
| Raise (e : exn).
Arguments Ok {A} a.
Arguments Raise {A} e.

(** Modelled from the spec: [_core.Sentinel] is not among the sources; the
    spec asks for "a dedicated unique marker value, distinguishable from any
    legitimate argument".  A sentinel is known by its name, and [py_is] is the
    identity test [a is b] on sentinels. *)
Definition Sentinel (name : string) : pyobj := PSentinel name.

Definition py_is (a b : pyobj) : bool :=
  match a, b with
  | PSentinel n, PSentinel m => String.eqb n m
  | _, _ => false
  end.

(** [await anext(iterator)] on a finite stream. *)
Definition anext {A} (iterator : list A) : result (A * list A) :=
  match iterator with
  | [] => Raise StopAsyncIteration
  | head :: tail => Ok (head, tail)
  end.

(** Modelled from the spec: [_core.ScopedIter] is not among the sources; it
    is the "scoped acquisition of the wrapped iterable": entering the scope
    gives the iterator of the iterable, leaving it closes that iterator. *)
Definition ScopedIter {A} (iterable : list A) : list A := iterable.

End Core.

Import Core.

(** ** functools.reduce *)

Module Reduce.

(** The binary function, already awaited: what [await function(a, b)] gives.
    [_awaitify] turns a plain or an async callable into an async one, so that
    both are called the same way. *)
Definition binop := pyobj -> pyobj -> result pyobj.

Definition _awaitify (function : binop) : binop := function.

(** The log of the invocations of [function], oldest first.  It is the only
    state [reduce] touches. *)
Definition trace := list (pyobj * pyobj).

Definition M (A : Type) : Type := trace -> result A * trace.

Definition ret {A} (a : A) : M A := fun tr => (Ok a, tr).
Definition raise {A} (e : exn) : M A := fun tr => (Raise e, tr).
Definition bind {A B} (c : M A) (k : A -> M B) : M B :=
  fun tr =>
    match c tr with
    | (Ok a, tr') => k a tr'
    | (Raise e, tr') => (Raise e, tr')
    end.

Notation "x <- c ;; k" := (bind c (fun x => k))
  (at level 100, c at next level, right associativity).

(** [await function(value, head)], logged. *)
Definition call (function : binop) (value head : pyobj) : M pyobj :=
  fun tr => (function value head, tr ++ [(value, head)]).

Definition __REDUCE_SENTINEL : pyobj := Sentinel "<no default>".

(** [async for head in item_iter: value = await function(value, head)] *)
Fixpoint fold_iter (function : binop) (value : pyobj) (item_iter : list pyobj)
  : M pyobj :=
  match item_iter with
  | [] => ret value
  | head :: item_iter' =>
      value' <- call function value head ;;
      fold_iter function value' item_iter'
  end.

Definition reduce (function : binop) (iterable : list pyobj) (initial : pyobj)
  : M pyobj :=
  let item_iter := ScopedIter iterable in
  first <-
    (if negb (py_is initial __REDUCE_SENTINEL) then ret (initial, item_iter)
     else match anext item_iter with
          | Ok vi => ret vi
          | Raise StopAsyncIteration =>
              raise (TypeError "reduce() of empty sequence with no initial value")
          | Raise e => raise e
          end) ;;
  let function := _awaitify function in
  fold_iter function (fst first) (snd first).

(** A call that passes no [initial]: the parameter takes its default. *)
Definition reduce_no_initial (function : binop) (iterable : list pyobj) : M pyobj :=
  reduce function iterable __REDUCE_SENTINEL.

(** The sum used by the unit tests, [lambda x, y: x + y], on integers. *)
Definition add : binop := fun x y =>
  match x, y with
  | PInt a, PInt b => Ok (PInt (a + b))
  | _, _ => Raise (TypeError "unsupported operand type(s) for +")
  end.

(** A function that fails on every call. *)
Definition boom : binop := fun _ _ => Raise (UserError "boom").

(** A function that returns on every call: [g] lifted to a [binop]. *)
Definition returning (g : pyobj -> pyobj -> pyobj) : binop :=
  fun x y => Ok (g x y).

(** A function that keeps its second argument, and one that fails on the
    integer 13 and keeps its second argument otherwise. *)
Definition keep_last : pyobj -> pyobj -> pyobj := fun _ y => y.

Definition unlucky : binop := fun _ y =>
  match y with
  | PInt 13 => Raise (UserError "unlucky")
  | _ => Ok y
  end.

End Reduce.

(** ** functools.cached_property *)

Module CachedProp.

(** [await getter(instance)]: the getter reads the instance, may change its
    attributes, and returns a value or raises. *)
Definition getter := gmap string pyobj -> result pyobj * gmap string pyobj.

Record CachedProperty : Type := mkCachedProperty {
  __wrapped__ : getter;
  _name : string
}.

(** [CachedProperty.__init__]; [getter_name] is [getter.__name__]. *)
Definition __init__ (g : getter) (getter_name : string) : CachedProperty :=
  mkCachedProperty g getter_name.

(** [CachedProperty.__set_name__]; [owner_has_dict] is
    [any("__dict__" in dir(cls) for cls in owner.__mro__)] and [owner_name]
    is [owner.__name__]. *)
Definition __set_name__ (self : CachedProperty) (owner_has_dict : bool)
    (owner_name name : string) : result CachedProperty :=
  if negb owner_has_dict
  then Raise (TypeError ("'cached_property' requires '__dict__' on '"
                         +:+ owner_name +:+ "' to store " +:+ name))
  else Ok (mkCachedProperty (__wrapped__ self) name).

(** [AwaitableValue(value)] and [AwaitableValue.__await__]: awaiting it gives
    [value] at once, with no suspension.  Other objects of the universe
    cannot be awaited. *)
Definition AwaitableValue (value : pyobj) : pyobj := PAwaitableValue value.

Definition await (obj : pyobj) : result pyobj :=
  match obj with
  | PAwaitableValue value => Ok value
  | _ => Raise (TypeError "object can't be used in 'await' expression")
  end.

(** *** Sequential use *)

(** The instance's [__dict__] and the number of getter invocations so far. *)
Record world : Type := mkWorld {
  attributes : gmap string pyobj;
  getter_calls : nat
}.

(** The body of [CachedProperty.__get__] run to its end in one go (nothing
    else runs while the getter is awaited).  [instance] is [None] when the
    attribute is read on the class. *)
Definition __get__ (self : CachedProperty) (instance : option world)
  : result pyobj * option world :=
  match instance with
  | None => (Ok (PCachedProperty (_name self)), None)
  | Some w =>
      match attributes w !! _name self with
      | Some stored => (Ok stored, Some w)
      | None =>
          let '(r, attrs) := __wrapped__ self (attributes w) in
          let calls := S (getter_calls w) in
          match r with
          | Raise e => (Raise e, Some (mkWorld attrs calls))
          | Ok value =>
              let attrs' :=
                match attrs !! _name self with
                | None => <[_name self := AwaitableValue value]> attrs
                | Some _ => attrs
                end in
              (Ok value, Some (mkWorld attrs' calls))
          end
      end
  end.

(** [await instance.<name>] where the class of the instance binds the
    descriptor [self] to [<name>].  [CachedProperty] defines no [__set__], so
    an entry of the instance's [__dict__] shadows it; otherwise the attribute
    is the coroutine of [__get__], which is awaited at once. *)
Definition access (self : CachedProperty) (w : world) : result pyobj * world :=
  match attributes w !! _name self with
  | Some obj => (await obj, w)
  | None =>
      match __get__ self (Some w) with
      | (r, Some w') => (r, w')
      | (r, None) => (r, w)
      end
  end.

(** [n] accesses in a row: the results, oldest first, and the final world. *)
Fixpoint accesses (self : CachedProperty) (n : nat) (w : world)
  : list (result pyobj) * world :=
  match n with
  | O => ([], w)
  | S n' =>
      let '(r, w') := access self w in
      let '(rs, w'') := accesses self n' w' in
      (r :: rs, w'')
  end.

(** *** Concurrent use

    Several reads of the attribute of one instance are in flight on one
    event loop.  The only suspension point of [__get__] is
    [await self.__wrapped__(instance)]; everything before and after it runs
    without interruption. *)

Inductive access_state : Type :=
| Unread                      (* [instance.<name>] not evaluated yet *)
| Holding (obj : pyobj)       (* the lookup found [obj] in [__dict__] *)
| Created                     (* the lookup made a coroutine of [__get__] *)
| Suspended                   (* inside [await self.__wrapped__(instance)] *)
| Finished (r : result pyobj).

Record loop_state : Type := mkLoop {
  l_attributes : gmap string pyobj;
  l_tasks : list access_state;
  l_getter_calls : nat
}.

Inductive event : Type :=
| Lookup (t : nat)            (* task [t] evaluates [instance.<name>] *)
| Start (t : nat)             (* task [t] awaits what the lookup gave *)
| GetterDone (t : nat) (r : result pyobj).
                              (* the getter awaited by [t] completes *)

Definition set_task (st : loop_state) (t : nat) (a : access_state) : loop_state :=
  mkLoop (l_attributes st) (<[t := a]> (l_tasks st)) (l_getter_calls st).

Definition step (self : CachedProperty) (st : loop_state) (ev : event)
  : option loop_state :=
  match ev with
  | Lookup t =>
      match l_tasks st !! t with
      | Some Unread =>
          match l_attributes st !! _name self with
          | Some obj => Some (set_task st t (Holding obj))
          | None => Some (set_task st t Created)
          end
      | _ => None
      end
  | Start t =>
      match l_tasks st !! t with
      | Some (Holding obj) => Some (set_task st t (Finished (await obj)))
      | Some Created =>
          match l_attributes st !! _name self with
          | Some stored => Some (set_task st t (Finished (Ok stored)))
          | None =>
              Some (mkLoop (l_attributes st) (<[t := Suspended]> (l_tasks st))
                           (S (l_getter_calls st)))
          end
      | _ => None
      end
  | GetterDone t r =>
      match l_tasks st !! t with
      | Some Suspended =>
          match r with
          | Raise e => Some (set_task st t (Finished (Raise e)))
          | Ok value =>
              let attrs :=
                match l_attributes st !! _name self with
                | None => <[_name self := AwaitableValue value]> (l_attributes st)
                | Some _ => l_attributes st
                end in
              Some (mkLoop attrs (<[t := Finished (Ok value)]> (l_tasks st))
                           (l_getter_calls st))
          end
      | _ => None
      end
  end.

Fixpoint run (self : CachedProperty) (st : loop_state) (evs : list event)
  : option loop_state :=
  match evs with
  | [] => Some st
  | ev :: evs' =>
      match step self st ev with
      | Some st' => run self st' evs'
      | None => None
      end
  end.

(** [k] reads of a fresh instance, none of them started. *)
Definition fresh_loop (attrs : gmap string pyobj) (k : nat) : loop_state :=
  mkLoop attrs (replicate k Unread) 0.

(** [i] of [k] reads are suspended in their getter, the others not begun. *)
Definition started (attrs : gmap string pyobj) (i k : nat) : loop_state :=
  mkLoop attrs (replicate i Suspended ++ replicate (k - i) Unread) i.

(** The reads [i], [i+1], ..., each looked up and started. *)
Definition start_from (i n : nat) : list event :=
  flat_map (fun t => [Lookup t; Start t]) (seq i n).

(** A getter that returns [v] and leaves the instance alone. *)
Definition const_getter (v : pyobj) : getter := fun attrs => (Ok v, attrs).

(** A run in which no getter completes, the number of reads it starts, and
    1 for a read suspended in its getter. *)
Definition no_completion (evs : list event) : bool :=
  forallb (fun ev => match ev with GetterDone _ _ => false | _ => true end) evs.

Definition starts (evs : list event) : nat :=
  sum_list_with (fun ev => match ev with Start _ => 1 | _ => 0 end) evs.

Definition suspended (a : access_state) : nat :=
  match a with
  | Suspended => 1
  | _ => 0
  end.

(** The states of a read while the slot is empty and no getter has
    completed. *)
Definition before_completion (a : access_state) : Prop :=
  a = Unread \/ a = Created \/ a = Suspended.

(** 1 for a read that has not come to run the body of [__get__] or to await
    what it holds, 0 for one that has. *)
Definition not_started (a : access_state) : nat :=
  match a with
  | Unread | Holding _ | Created => 1
  | Suspended | Finished _ => 0
  end.

(** A getter that raises [e] and leaves the instance alone, and a getter that
    returns [v] after it has assigned [obj] to the attribute [name] itself. *)
Definition failing_getter (e : exn) : getter := fun attrs => (Raise e, attrs).

Definition storing_getter (name : string) (obj v : pyobj) : getter :=
  fun attrs => (Ok v, <[name := obj]> attrs).

End CachedProp.

(** ** heapq.merge *)

Module Heapq.

(** Items are integers.  A key callable is a plain function or an [async]
    one; calling the second gives a coroutine object, which has to be awaited
    to get the key and which supports no comparison. *)
Inductive keyval : Type :=
| KPlain (z : Z)
| KCoroutine (z : Z).

Inductive keyfn : Type :=
| SyncKey (f : Z -> Z)
| AsyncKey (f : Z -> Z).

(** [key(head)] for the [key] argument as [merge] received it. *)
Definition call_key (key : option keyfn) (x : Z) : result keyval :=
  match key with
  | None => Raise (TypeError "'NoneType' object is not callable")
  | Some (SyncKey f) => Ok (KPlain (f x))
  | Some (AsyncKey f) => Ok (KCoroutine (f x))
  end.

(** [await v] *)
Definition await_key (v : keyval) : result keyval :=
  match v with
  | KCoroutine z => Ok (KPlain z)
  | KPlain _ => Raise (TypeError "object int can't be used in 'await' expression")
  end.

(** [a < b] on head keys *)
Definition keyval_lt (a b : keyval) : result bool :=
  match a, b with
  | KPlain x, KPlain y => Ok (x <? y)%Z
  | _, _ => Raise (TypeError "'<' not supported between instances")
  end.

(** Loops of the heap functions run on fuel: [None] is "out of fuel",
    [Some (Raise e)] a raised exception. *)
Definition R (A : Type) : Type := option (result A).

Definition rret {A} (a : A) : R A := Some (Ok a).
Definition rraise {A} (e : exn) : R A := Some (Raise e).
Definition lift {A} (r : result A) : R A := Some r.
Definition rbind {A B} (c : R A) (k : A -> R B) : R B :=
  match c with
  | None => None
  | Some (Raise e) => Some (Raise e)
  | Some (Ok a) => k a
  end.

Notation "x <- c ;; k" := (rbind c (fun x => k))
  (at level 100, c at next level, right associativity).

(** [oid] is the identity of the object; the other fields are the slots. *)
Record _KeyIter : Type := mkKeyIter {
  oid : nat;
  head : Z;
  tail : list Z;
  reverse : bool;
  head_key : keyval;
  key : option keyfn
}.

(** [_KeyIter.from_iters], collected: the objects it yields, in order, or the
    exception that ends it.  [n] counts the objects made so far. *)
Fixpoint from_iters (iterables : list (list Z)) (reverse : bool)
    (key : option keyfn) (n : nat) : result (list _KeyIter) :=
  match iterables with
  | [] => Ok []
  | iterable :: iterables' =>
      match anext iterable with
      | Raise StopAsyncIteration => from_iters iterables' reverse key n
      | Raise e => Raise e
      | Ok (head, iterator) =>
          match call_key key head with
          | Raise e => Raise e
          | Ok awaitable =>
              match await_key awaitable with
              | Raise e => Raise e
              | Ok head_key =>
                  match from_iters iterables' reverse key (S n) with
                  | Raise e => Raise e
                  | Ok its =>
                      Ok (mkKeyIter n head iterator reverse head_key key :: its)
                  end
              end
          end
      end
  end.

(** [_KeyIter.pull_head]: the flag it returns and the object afterwards. *)
Definition pull_head (self : _KeyIter) : result (bool * _KeyIter) :=
  match anext (tail self) with
  | Raise StopAsyncIteration => Ok (false, self)
  | Raise e => Raise e
  | Ok (head, tail') =>
      match (match key self with
             | Some _ => call_key (key self) head
             | None => Ok (KPlain head)
             end) with
      | Raise e => Raise e
      | Ok head_key =>
          Ok (true, mkKeyIter (oid self) head tail' (reverse self) head_key (key self))
      end
  end.

(** [_KeyIter.__lt__] *)
Definition __lt__ (self other : _KeyIter) : result bool :=
  match keyval_lt (head_key self) (head_key other) with
  | Raise e => Raise e
  | Ok b => Ok (xorb (reverse self) b)
  end.

(** An entry of [iter_heap] is the tuple [(itr, idx)].  Tuples compare by
    their first differing component; [_KeyIter] has no [__eq__], so two of
    them are equal only when they are the same object. *)
Definition entry : Type := _KeyIter * Z.

Definition entry_lt (a b : entry) : result bool :=
  if Nat.eqb (oid (fst a)) (oid (fst b)) then Ok (snd a <? snd b)%Z
  else __lt__ (fst a) (fst b).

Definition index (heap : list entry) (i : nat) : R entry :=
  match heap !! i with
  | Some x => rret x
  | None => rraise (IndexError "list index out of range")
  end.

(** The functions of Python's [heapq] that [merge] calls, as the reference
    implementation of the standard library has them. *)
Fixpoint _siftdown_loop (fuel : nat) (heap : list entry) (startpos pos : nat)
    (newitem : entry) : R (list entry * nat) :=
  if negb (startpos <? pos) then rret (heap, pos)
  else match fuel with
       | O => None
       | S fuel' =>
           let parentpos := (pos - 1) / 2 in
           parent <- index heap parentpos ;;
           b <- lift (entry_lt newitem parent) ;;
           if (b : bool)
           then _siftdown_loop fuel' (<[pos := parent]> heap) startpos parentpos newitem
           else rret (heap, pos)
       end.

Definition _siftdown (heap : list entry) (startpos pos : nat) : R (list entry) :=
  newitem <- index heap pos ;;
  hp <- _siftdown_loop pos heap startpos pos newitem ;;
  rret (<[snd hp := newitem]> (fst hp)).

Fixpoint _siftup_loop (fuel : nat) (heap : list entry) (endpos pos : nat)
  : R (list entry * nat) :=
  let childpos := 2 * pos + 1 in
  if negb (childpos <? endpos) then rret (heap, pos)
  else match fuel with
       | O => None
       | S fuel' =>
           let rightpos := childpos + 1 in
           childpos' <-
             (if rightpos <? endpos then
                l <- index heap childpos ;;
                r <- index heap rightpos ;;
                b <- lift (entry_lt l r) ;;
                rret (if (b : bool) then childpos else rightpos)
              else rret childpos) ;;
           child <- index heap childpos' ;;
           _siftup_loop fuel' (<[pos := child]> heap) endpos childpos'
       end.

Definition _siftup (heap : list entry) (pos : nat) : R (list entry) :=
  let endpos := length heap in
  let startpos := pos in
  newitem <- index heap pos ;;
  hp <- _siftup_loop endpos heap endpos pos ;;
  _siftdown (<[snd hp := newitem]> (fst hp)) startpos (snd hp).

Definition heapify (x : list entry) : R (list entry) :=
  let n := length x in
  foldl (fun acc i => h <- acc ;; _siftup h i) (rret x) (rev (seq 0 (n / 2))).

Definition heapreplace (heap : list entry) (item : entry) : R (entry * list entry) :=
  returnitem <- index heap 0 ;;
  heap' <- _siftup (<[0 := item]> heap) 0 ;;
  rret (returnitem, heap').

Definition heappop (heap : list entry) : R (entry * list entry) :=
  match last heap with
  | None => rraise (IndexError "pop from empty list")
  | Some lastelt =>
      let heap := removelast heap in
      match heap with
      | [] => rret (lastelt, heap)
      | returnitem :: _ =>
          heap' <- _siftup (<[0 := lastelt]> heap) 0 ;;
          rret (returnitem, heap')
      end
  end.

(** What a consumer of an async generator sees: the items yielded, and how
    the iteration ends, [Ok tt] for the regular end of the generator (the
    consumer gets [StopAsyncIteration]) or the exception that escapes. *)
Definition stream : Type := list Z * result unit.

(** The loop [while True: ...] inside [while len(iter_heap) > 1:].  It has no
    [break]: only an exception leaves it. *)
Fixpoint merge_loop (fuel : nat) (iter_heap : list entry) (out : list Z)
  : option (list Z * exn) :=
  match fuel with
  | O => None
  | S fuel' =>
      match iter_heap !! 0 with
      | None => Some (out, IndexError "list index out of range")
      | Some (itr, idx) =>
          let out := out ++ [head itr] in
          match pull_head itr with
          | Raise e => Some (out, e)
          | Ok (true, itr') =>
              match heapreplace iter_heap (itr', idx) with
              | None => None
              | Some (Raise e) => Some (out, e)
              | Some (Ok (_, heap')) => merge_loop fuel' heap' out
              end
          | Ok (false, _) =>
              match heappop iter_heap with
              | None => None
              | Some (Raise e) => Some (out, e)
              | Some (Ok (_, heap')) => merge_loop fuel' heap' out
              end
          end
      end
  end.

(** [a_enumerate] over the objects of [from_iters], with the index negated
    when [reverse] is set. *)
Definition enumerate_heap (its : list _KeyIter) (reverse : bool) : list entry :=
  imap (fun idx itr => (itr, if negb reverse then Z.of_nat idx else (- Z.of_nat idx)%Z)) its.

(** [merge] called with [iterables], [key] and [reverse], consumed to its end.  The
    [finally] block closes the iterators left in [iter_heap]; on lists that
    changes nothing a consumer sees. *)
Definition merge (iterables : list (list Z)) (key : option keyfn) (reverse : bool)
  : option stream :=
  match from_iters iterables reverse key 0 with
  | Raise e => Some ([], Raise e)
  | Ok its =>
      match heapify (enumerate_heap its reverse) with
      | None => None
      | Some (Raise e) => Some ([], Raise e)
      | Some (Ok iter_heap) =>
          if 1 <? length iter_heap then
            match merge_loop (S (length (concat iterables))) iter_heap [] with
            | None => None
            | Some (out, e) => Some (out, Raise e)
            end
          else
            match iter_heap with
            | (itr, idx) :: _ => Some (head itr :: tail itr, Ok tt)
            | [] => Some ([], Ok tt)
            end
      end
  end.

(** The sum of [w] over the entries of a heap. *)
Definition total (w : entry -> nat) (heap : list entry) : nat :=
  sum_list_with w heap.

(** What a heap function keeps when it returns: the number of entries and
    their total. *)
Definition keeps (w : entry -> nat) (heap : list entry)
    (res : result (list entry)) : Prop :=
  forall h, res = Ok h -> length h = length heap /\ total w h = total w heap.

(** The items an object still holds, its head and its tail, and their sum
    under a measure [m] of the items; with [one] it is their number. *)
Definition stream_of (itr : _KeyIter) : list Z := head itr :: tail itr.

Definition held (m : Z -> nat) (e : entry) : nat :=
  sum_list_with m (stream_of (fst e)).

Definition one : Z -> nat := fun _ => 1.

(** The measure that counts the item [v]. *)
Definition is_item (v : Z) : Z -> nat := fun x => if decide (x = v) then 1 else 0.

(** The iterables that have an item. *)
Definition non_empty (iterables : list (list Z)) : list (list Z) :=
  filter (fun it => it <> []) iterables.

(** Two [async] key callables and a plain one. *)
Definition async_identity : keyfn := AsyncKey (fun x => x).
Definition async_negate : keyfn := AsyncKey (fun x => (- x)%Z).
Definition sync_identity : keyfn := SyncKey (fun x => x).

End Heapq.

(** ** functools.lru_cache *)

Module LruCache.

Section Cache.

Context {K : Type} `{Countable K} {V : Type}.

(** *** LRU store *)

(** Modelled from the spec: [_lrucache.py], which defines [lru_cache] and
    [CacheInfo], is not among the sources.  The store is the spec's "ordered
    mapping from CacheKey to CacheEntry where order reflects recency of
    access", most recently used first, with the operations of its section
    on the LRU store. *)
Record LRUStore : Type := mkStore {
  entries : list (K * V);
  max_size : option nat
}.

Fixpoint assoc (key : K) (es : list (K * V)) : option V :=
  match es with
  | [] => None
  | (k, v) :: es' => if decide (k = key) then Some v else assoc key es'
  end.

Definition remove_key (key : K) (es : list (K * V)) : list (K * V) :=
  filter (fun e => e.1 <> key) es.

Definition keys (s : LRUStore) : list K := (entries s).*1.

Definition size (s : LRUStore) : nat := length (entries s).

(** Modelled from the spec: [get(key)], "if present, promotes key to
    most-recently-used position as a side effect". *)
Definition get (s : LRUStore) (key : K) : option (V * LRUStore) :=
  match assoc key (entries s) with
  | Some v => Some (v, mkStore ((key, v) :: remove_key key (entries s)) (max_size s))
  | None => None
  end.

(** Modelled from the spec: [put(key, value)], "inserts/overwrites; marks as
    most-recently-used; if resulting size exceeds configured maximum, evicts
    the least-recently-used entry".  The second component is the key evicted,
    if any. *)
Definition put (s : LRUStore) (key : K) (value : V) : LRUStore * option K :=
  let es := (key, value) :: remove_key key (entries s) in
  match max_size s with
  | Some n =>
      if n <? length es
      then (mkStore (removelast es) (max_size s), fst <$> last es)
      else (mkStore es (max_size s), None)
  | None => (mkStore es (max_size s), None)
  end.

(** Modelled from the spec: [remove(key)], "deletes an entry if present;
    no-op otherwise", and [clear()], "empties the store". *)
Definition remove (s : LRUStore) (key : K) : LRUStore :=
  mkStore (remove_key key (entries s)) (max_size s).

Definition clear (s : LRUStore) : LRUStore := mkStore [] (max_size s).

(** *** Cached callable *)

(** Modelled from the spec: [CacheInfo], the "immutable tuple {hits, misses,
    max_size, current_size}". *)
Record CacheInfo : Type := mkInfo {
  info_hits : nat;
  info_misses : nat;
  info_max_size : option nat;
  info_current_size : nat
}.

(** Modelled from the spec: the "shared future/promise of its eventual
    result (or failure)" of a pending call; a waiter holds its number. *)
Inductive future : Type :=
| Running (key : K)
| Resolved (r : result V).

(** Modelled from the spec: the state of one cache instance, "store, pending
    table, counters".  [pending] maps a key to the future of its in-flight
    computation.  [invocations] logs the invocations of the underlying
    function, oldest first; [accesses] logs the keys hit or inserted since the
    store was last empty by [cache_clear], newest first.  Both logs are
    there for the statements only: no operation reads them. *)
Record cache : Type := mkCache {
  store : LRUStore;
  pending : gmap K nat;
  futures : gmap nat future;
  next_future : nat;
  hits : nat;
  misses : nat;
  invocations : list K;
  accesses : list K
}.

(** Modelled from the spec: [lru_cache(max_size)] on construction. *)
Definition lru_cache (maxsize : option nat) : cache :=
  mkCache (mkStore [] maxsize) ∅ ∅ 0 0 0 [] [].

(** How the synchronous first part of a call ends. *)
Inductive begun : Type :=
| Hit (v : V)              (* the store has the key *)
| Joined (fut : nat)       (* a computation for the key is in flight *)
| Started (fut : nat).     (* this call started the computation *)

(** Modelled from the spec: the flow of its system overview, up to the first
    suspension: "checks the LRU Store; on hit, updates access order and
    statistics and returns immediately; on miss, checks the Pending-Call
    Table — if a computation for that key is already in flight, the caller
    awaits its shared result; otherwise the Cached Callable starts a new
    computation, registers it in the Pending-Call Table". *)
Definition begin_call (st : cache) (key : K) : cache * begun :=
  match get (store st) key with
  | Some (v, s') =>
      (mkCache s' (pending st) (futures st) (next_future st)
               (S (hits st)) (misses st) (invocations st) (key :: accesses st),
       Hit v)
  | None =>
      match pending st !! key with
      | Some fut => (st, Joined fut)
      | None =>
          let fut := next_future st in
          (mkCache (store st) (<[key := fut]> (pending st))
                   (<[fut := Running key]> (futures st)) (S fut)
                   (hits st) (misses st) (invocations st ++ [key]) (accesses st),
           Started fut)
      end
  end.

(** Modelled from the spec: the completion of the computation registered for
    [key]: "stores the result in the LRU Store (evicting if over capacity),
    removes the Pending-Call entry, and returns the result (or propagates
    its failure) to all waiters".  A failure "is not cached as a value", and
    "both attempts [are] counted as misses". *)
Definition complete (st : cache) (key : K) (r : result V) : option cache :=
  match pending st !! key with
  | None => None
  | Some fut =>
      let '(s', log) :=
        match r with
        | Ok v => ((put (store st) key v).1, key :: accesses st)
        | Raise _ => (store st, accesses st)
        end in
      Some (mkCache s' (delete key (pending st))
                    (<[fut := Resolved r]> (futures st)) (next_future st)
                    (hits st) (S (misses st)) (invocations st) log)
  end.

(** Modelled from the spec: [cache_info()] and [cache_clear()]; the second
    "empties LRU Store and resets hits/misses to zero; does not cancel or
    affect currently in-flight Pending-Call entries". *)
Definition cache_info (st : cache) : CacheInfo :=
  mkInfo (hits st) (misses st) (max_size (store st)) (size (store st)).

Definition cache_clear (st : cache) : cache :=
  mkCache (clear (store st)) (pending st) (futures st) (next_future st)
          0 0 (invocations st) [].

(** *** Sequential use *)

(** Modelled from the spec: the public operation [call] of the cached
    callable, awaited with nothing else running.  [outcome] is what the
    underlying function gives if this call invokes it.  [None]: the call
    would wait for a computation that nothing is there to complete. *)
Definition call (st : cache) (key : K) (outcome : result V)
  : option (result V * cache) :=
  match begin_call st key with
  | (st1, Hit v) => Some (Ok v, st1)
  | (st1, Started _) =>
      match complete st1 key outcome with
      | Some st2 => Some (outcome, st2)
      | None => None
      end
  | (st1, Joined fut) =>
      match futures st1 !! fut with
      | Some (Resolved r) => Some (r, st1)
      | _ => None
      end
  end.

Inductive op : Type :=
| OpCall (key : K) (outcome : result V)
| OpClear.

Definition run_op (st : cache) (o : op) : option cache :=
  match o with
  | OpCall key outcome => snd <$> call st key outcome
  | OpClear => Some (cache_clear st)
  end.

Fixpoint run_ops (st : cache) (ops : list op) : option cache :=
  match ops with
  | [] => Some st
  | o :: ops' =>
      match run_op st o with
      | Some st' => run_ops st' ops'
      | None => None
      end
  end.

(** The keys called, oldest first, and whether every call is one whose
    underlying function would succeed. *)
Definition called_keys (ops : list op) : list K :=
  omap (fun o => match o with OpCall k _ => Some k | OpClear => None end) ops.

Definition all_succeed (ops : list op) : bool :=
  forallb (fun o => match o with OpCall _ (Ok _) => true | _ => false end) ops.

(** The keys of a log of accesses (newest first) by recency: each key once,
    the most recently accessed first. *)
Fixpoint recency (log : list K) : list K :=
  match log with
  | [] => []
  | k :: older => k :: filter (fun x => x <> k) (recency older)
  end.

(** How long ago [k] was last accessed: the number of accesses after its
    most recent one.  A larger age is an earlier access. *)
Fixpoint age (k : K) (log : list K) : nat :=
  match log with
  | [] => 0
  | x :: older => if decide (x = k) then 0 else S (age k older)
  end.

(** Between two calls of a sequential run: the capacity is [N], nothing is
    pending, and the store holds the [N] most recent keys of the log. *)
Definition between_calls (N : nat) (st : cache) : Prop :=
  max_size (store st) = Some N
  /\ pending st = ∅
  /\ keys (store st) = take N (recency (accesses st)).

(** *** Concurrent use *)

(** Modelled from the spec: callers on one cooperative scheduler.  "A call
    suspends only while (a) awaiting the underlying function's computation
    or (b) awaiting a shared pending computation started by another caller.
    All bookkeeping [...] is synchronous and must never itself suspend".  A
    caller is waiting on a future or has its outcome. *)
Inductive caller : Type :=
| Waiting (fut : nat)
| Done (r : result V).

Record system : Type := mkSystem {
  the_cache : cache;
  callers : gmap nat caller
}.

Inductive event : Type :=
| Call (c : nat) (key : K)            (* caller [c] enters the wrapper *)
| Complete (key : K) (r : result V)   (* the computation for [key] ends *)
| Resume (c : nat)                    (* caller [c] gets its future's outcome *)
| Clear.                              (* [cache_clear()] *)

(** Modelled from the spec: one atomic step of the scheduler.  A caller
    number is used for one call; a completion needs a pending call of the
    key; a caller resumes once its future is resolved. *)
Definition step (sys : system) (ev : event) : option system :=
  match ev with
  | Call c key =>
      match callers sys !! c with
      | Some _ => None
      | None =>
          let '(st, b) := begin_call (the_cache sys) key in
          let state :=
            match b with
            | Hit v => Done (Ok v)
            | Joined fut => Waiting fut
            | Started fut => Waiting fut
            end in
          Some (mkSystem st (<[c := state]> (callers sys)))
      end
  | Complete key r =>
      match complete (the_cache sys) key r with
      | Some st => Some (mkSystem st (callers sys))
      | None => None
      end
  | Resume c =>
      match callers sys !! c with
      | Some (Waiting fut) =>
          match futures (the_cache sys) !! fut with
          | Some (Resolved r) =>
              Some (mkSystem (the_cache sys) (<[c := Done r]> (callers sys)))
          | _ => None
          end
      | _ => None
      end
  | Clear => Some (mkSystem (cache_clear (the_cache sys)) (callers sys))
  end.

Fixpoint run (sys : system) (evs : list event) : option system :=
  match evs with
  | [] => Some sys
  | ev :: evs' =>
      match step sys ev with
      | Some sys' => run sys' evs'
      | None => None
      end
  end.

Definition is_complete_of (key : K) (ev : event) : bool :=
  match ev with
  | Complete k _ => bool_decide (k = key)
  | _ => false
  end.

(** The number of invocations of the underlying function for [key]. *)
Definition invoked (key : K) (st : cache) : nat :=
  length (filter (fun k => k = key) (invocations st)).

(** The pending table and the futures agree, and future numbers are fresh. *)
Definition coherent (st : cache) : Prop :=
  (forall k fut, pending st !! k = Some fut -> futures st !! fut = Some (Running k))
  /\ (forall fut, next_future st <= fut -> futures st !! fut = None)
  /\ (forall fut k, futures st !! fut = Some (Running k) -> pending st !! k = Some fut).

(** The callers that call [key] in a run, and the callers it resumes. *)
Definition calls_of (key : K) (evs : list event) : list nat :=
  omap (fun ev => match ev with
                  | Call c k => if decide (k = key) then Some c else None
                  | _ => None
                  end) evs.

Definition resumes_of (evs : list event) : list nat :=
  omap (fun ev => match ev with Resume c => Some c | _ => None end) evs.

(** While no computation of [key] has completed: [key] is not stored, and
    either nobody has called it, or it is pending on one future, invoked
    once more than the [n0] times before, with all its callers waiting. *)
Definition outstanding (key : K) (n0 : nat) (called : list nat) (sys : system)
  : Prop :=
  coherent (the_cache sys)
  /\ (key ∉ keys (store (the_cache sys)))
  /\ (match pending (the_cache sys) !! key with
      | None => called = [] /\ invoked key (the_cache sys) = n0
      | Some fut =>
          invoked key (the_cache sys) = S n0
          /\ forall c, c ∈ called -> callers sys !! c = Some (Waiting fut)
      end).

(** Once the future [fut] is resolved to [r]: the callers [cs] wait on it or
    have its outcome, and those that were resumed have it. *)
Definition settled (fut : nat) (r : result V) (cs resumed : list nat)
    (sys : system) : Prop :=
  coherent (the_cache sys)
  /\ futures (the_cache sys) !! fut = Some (Resolved r)
  /\ (forall c, c ∈ cs ->
        callers sys !! c = Some (Waiting fut) \/ callers sys !! c = Some (Done r))
  /\ (forall c, c ∈ cs -> c ∈ resumed -> callers sys !! c = Some (Done r)).

End Cache.

Arguments LRUStore K V : clear implicits.
Arguments cache K {_ _} V.
Arguments system K {_ _} V.
Arguments event K V : clear implicits.
Arguments op K V : clear implicits.

(** The calls of [test_lru_cache_bounded]: [pingpong] returns its argument. *)
Definition pingpong (values : list nat) : list (op nat nat) :=
  (fun value => OpCall value (Ok value)) <$> values.

Definition rounds (n : nat) (values : list nat) : list (op nat nat) :=
  mjoin (replicate n (pingpong values)).

(** Three callers of the key 5, with a call of the key 9 started, completed
    and resumed in between. *)
Definition three_callers_run : list (event nat nat) :=
  [Call 0 5; Call 7 9; Call 1 5; Complete 9 (Ok 81); Resume 7; Call 2 5].

Definition three_callers_waiting : system nat nat :=
  default (mkSystem (lru_cache None) ∅)
          (run (mkSystem (lru_cache (Some 4)) ∅) three_callers_run).

(** Two callers waiting on the pending call of the key 5. *)
Definition two_callers_waiting : system nat nat :=
  default (mkSystem (lru_cache None) ∅)
          (run (mkSystem (lru_cache (Some 4)) ∅) [Call 0 5; Call 1 5]).

End LruCache.

(** * Properties *)

(** ** reduce *)

Section ReduceProperties.

Import Reduce.

Variable function : binop.

Lemma py_is_sentinel_true (v : pyobj) :
  py_is v __REDUCE_SENTINEL = true <-> v = __REDUCE_SENTINEL.
Proof.
  unfold __REDUCE_SENTINEL, Sentinel. split.
  - destruct v; simpl; try discriminate.
    intros E. apply String.eqb_eq in E. now subst.
  - intros ->. simpl. reflexivity.
Qed.

Lemma reduce_with_initial (iterable : list pyobj) (initial : pyobj) (tr : trace) :
  py_is initial __REDUCE_SENTINEL = false ->
  reduce function iterable initial tr = fold_iter function initial iterable tr.
Proof.
  intros E. unfold reduce, bind, ScopedIter, _awaitify. rewrite E. reflexivity.
Qed.

Lemma reduce_without_initial (head : pyobj) (iterable : list pyobj) (tr : trace) :
  reduce function (head :: iterable) __REDUCE_SENTINEL tr
  = fold_iter function head iterable tr.
Proof. reflexivity. Qed.

Lemma reduce_empty_without_initial (tr : trace) :
  reduce function [] __REDUCE_SENTINEL tr
  = (Raise (TypeError "reduce() of empty sequence with no initial value"), tr).
Proof. reflexivity. Qed.

(** An exception that leaves the fold was raised by [function]. *)
Lemma fold_iter_raise (iterable : list pyobj) :
  forall (value : pyobj) (tr : trace) (e : exn),
    (fold_iter function value iterable tr).1 = Raise e ->
    exists a b, function a b = Raise e.
Proof.
  induction iterable as [|head rest IH]; intros value tr e; simpl.
  - discriminate.
  - unfold bind, call. destruct (function value head) as [v'|e'] eqn:F.
    + apply IH.
    + simpl. intros [= ->]. eauto.
Qed.

(** The fold only adds to the log of calls, and a fold that raises has made
    a call. *)
Lemma fold_iter_calls (iterable : list pyobj) :
  forall (value : pyobj) (tr : trace),
    exists calls,
      (fold_iter function value iterable tr).2 = tr ++ calls
      /\ forall e, (fold_iter function value iterable tr).1 = Raise e -> calls <> [].
Proof.
  induction iterable as [|head rest IH]; intros value tr; simpl.
  - exists []. split; [symmetry; apply app_nil_r | discriminate].
  - unfold bind, call. destruct (function value head) as [v'|e'] eqn:F.
    + destruct (IH v' (tr ++ [(value, head)])) as (calls & T & C).
      exists ((value, head) :: calls). split.
      * rewrite T, <- app_assoc. reflexivity.
      * intros e _. discriminate.
    + exists [(value, head)]. split; [reflexivity|]. intros e _. discriminate.
Qed.

End ReduceProperties.

Lemma py_is_sentinel_false (v : pyobj) :
  v <> Reduce.__REDUCE_SENTINEL -> py_is v Reduce.__REDUCE_SENTINEL = false.
Proof.
  intros N. destruct (py_is v Reduce.__REDUCE_SENTINEL) eqn:E; [|reflexivity].
  apply py_is_sentinel_true in E. contradiction.
Qed.

(** C9: [reduce] raises [TypeError] exactly when the iterable is empty and no
    [initial] was passed, that is when [initial] is the sentinel of the
    module.  It does so there, before any call of [function].  Conversely an
    exception that [reduce] raises with no call of [function] made is that
    [TypeError], raised on the empty iterable with no [initial]; every other
    exception was raised by a call of [function] and is passed on.  And every
    [initial] other than the sentinel, whatever its value, comes back from
    the empty iterable. *)
Theorem reduce_TypeError_iff_empty_without_initial
    (function : Reduce.binop) (iterable : list pyobj) (initial : pyobj)
    (tr : Reduce.trace) :
  (iterable = [] /\ initial = Reduce.__REDUCE_SENTINEL ->
   Reduce.reduce function iterable initial tr
   = (Raise (TypeError "reduce() of empty sequence with no initial value"), tr))
  /\ (forall e,
        Reduce.reduce function iterable initial tr = (Raise e, tr) ->
        iterable = [] /\ initial = Reduce.__REDUCE_SENTINEL
        /\ e = TypeError "reduce() of empty sequence with no initial value")
  /\ (forall e,
        (Reduce.reduce function iterable initial tr).1 = Raise e ->
        (iterable = [] /\ initial = Reduce.__REDUCE_SENTINEL
         /\ e = TypeError "reduce() of empty sequence with no initial value")
        \/ exists a b, function a b = Raise e)
  /\ (initial <> Reduce.__REDUCE_SENTINEL ->
      Reduce.reduce function [] initial tr = (Ok initial, tr)).
Proof.
  assert (Own : forall e,
             (Reduce.reduce function iterable initial tr).1 = Raise e ->
             (iterable = [] /\ initial = Reduce.__REDUCE_SENTINEL
              /\ Reduce.reduce function iterable initial tr
                 = (Raise (TypeError "reduce() of empty sequence with no initial value"),
                    tr))
             \/ exists value items,
                  Reduce.reduce function iterable initial tr
                  = Reduce.fold_iter function value items tr).
  { intros e Hr. destruct (py_is initial Reduce.__REDUCE_SENTINEL) eqn:E.
    - apply py_is_sentinel_true in E. subst initial.
      destruct iterable as [|head rest].
      + left. split; [reflexivity|]. split; reflexivity.
      + right. exists head, rest. apply reduce_without_initial.
    - right. exists initial, iterable. apply reduce_with_initial. exact E. }
  split; [|split; [|split]].
  - intros [-> ->]. apply reduce_empty_without_initial.
  - intros e Hr.
    destruct (Own e) as [(-> & -> & R)|(value & items & R)];
      [rewrite Hr; reflexivity| |].
    + rewrite R in Hr. injection Hr as <-. auto.
    + rewrite R in Hr. exfalso.
      destruct (fold_iter_calls function items value tr) as (calls & T & C).
      rewrite Hr in T, C. simpl in T, C.
      specialize (C e eq_refl).
      rewrite <- (app_nil_r tr) in T at 1. apply app_inv_head in T.
      congruence.
  - intros e Hr.
    destruct (Own e Hr) as [(-> & -> & R)|(value & items & R)].
    + left. rewrite R in Hr. injection Hr as <-. auto.
    + right. rewrite R in Hr. eapply fold_iter_raise. exact Hr.
  - intros N. rewrite reduce_with_initial by (apply py_is_sentinel_false; exact N).
    reflexivity.
Qed.

Lemma reduce_TypeError_iff_empty_without_initial_witness :
  Reduce.reduce Reduce.add [] Reduce.__REDUCE_SENTINEL []
  = (Raise (TypeError "reduce() of empty sequence with no initial value"), [])
  /\ (([] : list pyobj) = [] /\ Reduce.__REDUCE_SENTINEL = Reduce.__REDUCE_SENTINEL
      /\ TypeError "reduce() of empty sequence with no initial value"
         = TypeError "reduce() of empty sequence with no initial value")
  /\ (exists a b, Reduce.add a b = Raise (TypeError "unsupported operand type(s) for +"))
  /\ Reduce.reduce Reduce.add [] PNone [] = (Ok PNone, [])
  /\ Reduce.reduce Reduce.add [] (PInt 0) [] = (Ok (PInt 0), [])
  /\ Reduce.reduce Reduce.add [] (PList []) [] = (Ok (PList []), []).
Proof.
  split; [|split; [|split; [|split; [|split]]]].
  - apply (reduce_TypeError_iff_empty_without_initial
             Reduce.add [] Reduce.__REDUCE_SENTINEL []).
    split; reflexivity.
  - apply (proj1 (proj2 (reduce_TypeError_iff_empty_without_initial
                           Reduce.add [] Reduce.__REDUCE_SENTINEL []))).
    reflexivity.
  - destruct (proj1 (proj2 (proj2 (reduce_TypeError_iff_empty_without_initial
                                     Reduce.add [PInt 1; PNone]
                                     Reduce.__REDUCE_SENTINEL [])))
                (TypeError "unsupported operand type(s) for +") eq_refl)
      as [(E & _)|F].
    + discriminate E.
    + exact F.
  - apply (reduce_TypeError_iff_empty_without_initial Reduce.add [] PNone []).
    discriminate.
  - apply (reduce_TypeError_iff_empty_without_initial Reduce.add [] (PInt 0) []).
    discriminate.
  - apply (reduce_TypeError_iff_empty_without_initial Reduce.add [] (PList []) []).
    discriminate.
Defined.

(** C10: when [initial] and the iterable together hold exactly one item,
    [reduce] returns that item and leaves the log of invocations of
    [function] as it was: [function] is not called. *)
Theorem reduce_single_item_without_call
    (function : Reduce.binop) (item initial : pyobj) (tr : Reduce.trace) :
  Reduce.reduce_no_initial function [item] tr = (Ok item, tr)
  /\ (initial <> Reduce.__REDUCE_SENTINEL ->
      Reduce.reduce function [] initial tr = (Ok initial, tr)).
Proof.
  split.
  - unfold Reduce.reduce_no_initial. rewrite reduce_without_initial. reflexivity.
  - intros N. rewrite reduce_with_initial by (apply py_is_sentinel_false; exact N).
    reflexivity.
Qed.

Lemma reduce_single_item_without_call_witness :
  Reduce.reduce_no_initial Reduce.boom [PInt 12] [] = (Ok (PInt 12), [])
  /\ Reduce.reduce Reduce.boom [] (PInt 42) [] = (Ok (PInt 42), []).
Proof.
  split.
  - apply (reduce_single_item_without_call Reduce.boom (PInt 12) PNone []).
  - apply (reduce_single_item_without_call Reduce.boom (PInt 12) (PInt 42) []).
    discriminate.
Defined.

(** The runs of [test_reduce], and one where [function] is called. *)
Example reduce_test_sum :
  Reduce.reduce_no_initial Reduce.add [PInt 0; PInt 1; PInt 2] []
  = (Ok (PInt 3), [(PInt 0, PInt 1); (PInt 1, PInt 2)])
  /\ Reduce.reduce Reduce.add [PInt 1] (PInt 23) [] = (Ok (PInt 24), [(PInt 23, PInt 1)]).
Proof. split; reflexivity. Qed.

(** ** cached_property *)

Lemma sum_list_with_insert {A} (f : A -> nat) (l : list A) :
  forall (i : nat) (x y : A),
    l !! i = Some y ->
    sum_list_with f (<[i := x]> l) + f y = sum_list_with f l + f x.
Proof.
  induction l as [|a l IH]; intros i x y L; [discriminate|].
  destruct i as [|i].
  - injection L as ->. simpl. lia.
  - simpl in L. specialize (IH i x y L). simpl. lia.
Qed.

Section CachedPropertyProperties.

Import CachedProp.

Variable self : CachedProperty.

(** Once the slot holds an [AwaitableValue], an access gives its value and
    changes nothing. *)
Lemma access_populated (w : world) (value : pyobj) :
  attributes w !! _name self = Some (AwaitableValue value) ->
  access self w = (Ok value, w).
Proof. intros E. unfold access. rewrite E. reflexivity. Qed.

Lemma accesses_populated (n : nat) (w : world) (value : pyobj) :
  attributes w !! _name self = Some (AwaitableValue value) ->
  accesses self n w = (replicate n (Ok value), w).
Proof.
  intros E. induction n as [|n IH]; simpl.
  - reflexivity.
  - rewrite (access_populated w value E), IH. reflexivity.
Qed.

(** The first access of an instance whose slot is empty. *)
Lemma access_first (w : world) (value : pyobj) (attrs : gmap string pyobj) :
  attributes w !! _name self = None ->
  __wrapped__ self (attributes w) = (Ok value, attrs) ->
  attrs !! _name self = None ->
  access self w
  = (Ok value,
     mkWorld (<[_name self := AwaitableValue value]> attrs) (S (getter_calls w))).
Proof.
  intros E G E'. unfold access, __get__. rewrite E, G, E'. reflexivity.
Qed.

Lemma start_one (attrs : gmap string pyobj) (i k : nat) :
  attrs !! _name self = None -> i < k ->
  run self (started attrs i k) [Lookup i; Start i] = Some (started attrs (S i) k).
Proof.
  intros E Lt. unfold started.
  assert (Hk : k - i = S (k - S i)) by lia. rewrite Hk.
  assert (Hlen : length (replicate i Suspended : list access_state) = i)
    by apply length_replicate.
  simpl. rewrite (list_lookup_middle _ _ _ i) by (symmetry; exact Hlen).
  rewrite E. unfold set_task. simpl.
  assert (Hins : forall a b : access_state,
             <[i := a]> (replicate i Suspended ++ b :: replicate (k - S i) Unread)
             = replicate i Suspended ++ a :: replicate (k - S i) Unread).
  { intros a b.
    replace i with (length (replicate i Suspended : list access_state) + 0) at 1
      by (rewrite Hlen; lia).
    rewrite insert_app_r. reflexivity. }
  rewrite Hins. rewrite (list_lookup_middle _ _ _ i) by (symmetry; exact Hlen).
  rewrite E. rewrite Hins.
  replace (replicate i Suspended ++ Suspended :: replicate (k - S i) Unread)
    with (replicate (S i) Suspended ++ replicate (k - S i) Unread).
  - reflexivity.
  - rewrite replicate_S_end. rewrite <- app_assoc. reflexivity.
Qed.

Lemma run_app (st : loop_state) (evs1 evs2 : list event) :
  run self st (evs1 ++ evs2)
  = match run self st evs1 with
    | Some st' => run self st' evs2
    | None => None
    end.
Proof.
  revert st. induction evs1 as [|ev evs1 IH]; intros st; simpl.
  - reflexivity.
  - destruct (step self st ev); [apply IH | reflexivity].
Qed.

Lemma start_many (attrs : gmap string pyobj) (n : nat) :
  forall i k, attrs !! _name self = None -> i + n <= k ->
    run self (started attrs i k) (start_from i n) = Some (started attrs (i + n) k).
Proof.
  induction n as [|n IH]; intros i k E Le.
  - simpl. rewrite Nat.add_0_r. reflexivity.
  - unfold start_from. simpl seq. simpl flat_map.
    change (Lookup i :: Start i :: flat_map (fun t => [Lookup t; Start t]) (seq (S i) n))
      with ([Lookup i; Start i] ++ start_from (S i) n).
    rewrite run_app, start_one by (assumption || lia).
    rewrite IH by (assumption || lia). f_equal. f_equal. lia.
Qed.

(** While the slot is empty and no getter completes, a step leaves the
    attributes alone, and the getter is invoked exactly when a read starts. *)
Lemma step_before_completion (st st' : loop_state) (ev : event) :
  l_attributes st !! _name self = None ->
  Forall before_completion (l_tasks st) ->
  no_completion [ev] = true ->
  step self st ev = Some st' ->
  l_attributes st' = l_attributes st
  /\ Forall before_completion (l_tasks st')
  /\ length (l_tasks st') = length (l_tasks st)
  /\ l_getter_calls st' = l_getter_calls st + starts [ev]
  /\ sum_list_with suspended (l_tasks st')
     = sum_list_with suspended (l_tasks st) + starts [ev].
Proof.
  intros E B NC St. destruct ev as [t|t|t r]; [| |discriminate]; simpl in St.
  - destruct (l_tasks st !! t) as [[| | | |]|] eqn:T; try discriminate.
    rewrite E in St. injection St as <-. unfold set_task. simpl.
    pose proof (sum_list_with_insert suspended _ t Created _ T) as I. simpl in I.
    repeat split; [|apply length_insert|lia|lia].
    apply Forall_insert; [exact B|]. right. left. reflexivity.
  - destruct (l_tasks st !! t) as [[| | | |]|] eqn:T; try discriminate.
    + exfalso. pose proof (Forall_lookup_1 _ _ _ _ B T) as [C|[C|C]]; discriminate.
    + rewrite E in St. injection St as <-. simpl.
      pose proof (sum_list_with_insert suspended _ t Suspended _ T) as I. simpl in I.
      repeat split; [|apply length_insert|lia|lia].
      apply Forall_insert; [exact B|]. right. right. reflexivity.
Qed.

Lemma run_before_completion (evs : list event) :
  forall st st' : loop_state,
    l_attributes st !! _name self = None ->
    Forall before_completion (l_tasks st) ->
    no_completion evs = true ->
    run self st evs = Some st' ->
    l_attributes st' = l_attributes st
    /\ length (l_tasks st') = length (l_tasks st)
    /\ l_getter_calls st' = l_getter_calls st + starts evs
    /\ sum_list_with suspended (l_tasks st')
       = sum_list_with suspended (l_tasks st) + starts evs.
Proof.
  induction evs as [|ev evs IH]; intros st st' E B NC R.
  - simpl in R. injection R as <-. unfold starts. simpl. repeat split; lia.
  - simpl in R. destruct (step self st ev) as [st1|] eqn:St; [|discriminate].
    simpl in NC. apply andb_prop in NC as [NC1 NC2].
    destruct (step_before_completion st st1 ev E B) as (A1 & B1 & L1 & C1 & S1);
      [simpl; rewrite NC1; reflexivity | exact St |].
    destruct (IH st1 st') as (A2 & L2 & C2 & S2);
      [rewrite A1; exact E | exact B1 | exact NC2 | exact R |].
    unfold starts in *. simpl in *.
    repeat split; [congruence | congruence | lia | lia].
Qed.

Lemma suspended_all (k : nat) :
  sum_list_with suspended (replicate k Suspended) = k.
Proof. induction k as [|k IH]; simpl; [reflexivity|]. rewrite IH. reflexivity. Qed.

End CachedPropertyProperties.

(** C8: under sequential use, when the getter returns [value] and does not
    fill the slot of the field itself, the first access invokes the getter
    once and stores [AwaitableValue value] under the name of the field in the
    instance's [__dict__]; each of the [n] accesses that follow returns
    [value], with no further invocation and the instance unchanged. *)
Theorem cached_property_sequential_once
    (self : CachedProp.CachedProperty) (w : CachedProp.world)
    (value : pyobj) (attrs : gmap string pyobj) (n : nat) :
  CachedProp.attributes w !! CachedProp._name self = None ->
  CachedProp.__wrapped__ self (CachedProp.attributes w) = (Ok value, attrs) ->
  attrs !! CachedProp._name self = None ->
  exists w1,
    CachedProp.access self w = (Ok value, w1)
    /\ CachedProp.getter_calls w1 = S (CachedProp.getter_calls w)
    /\ CachedProp.attributes w1 !! CachedProp._name self
       = Some (CachedProp.AwaitableValue value)
    /\ CachedProp.accesses self n w1 = (replicate n (Ok value), w1).
Proof.
  intros E G E'. eexists. split; [apply (access_first self w value attrs E G E')|].
  split; [reflexivity|].
  assert (L : CachedProp.attributes
                (CachedProp.mkWorld
                   (<[CachedProp._name self := CachedProp.AwaitableValue value]> attrs)
                   (S (CachedProp.getter_calls w)))
              !! CachedProp._name self = Some (CachedProp.AwaitableValue value)).
  { simpl. apply lookup_insert_eq. }
  split; [exact L|]. apply accesses_populated. exact L.
Qed.

Lemma cached_property_sequential_once_witness :
  exists w1,
    CachedProp.access
      (CachedProp.__init__ (CachedProp.const_getter (PInt 7)) "answer")
      (CachedProp.mkWorld ∅ 0) = (Ok (PInt 7), w1)
    /\ CachedProp.getter_calls w1 = 1
    /\ CachedProp.attributes w1 !! "answer" = Some (CachedProp.AwaitableValue (PInt 7))
    /\ CachedProp.accesses
         (CachedProp.__init__ (CachedProp.const_getter (PInt 7)) "answer") 3 w1
       = ([Ok (PInt 7); Ok (PInt 7); Ok (PInt 7)], w1).
Proof.
  apply (cached_property_sequential_once
           (CachedProp.__init__ (CachedProp.const_getter (PInt 7)) "answer")
           (CachedProp.mkWorld ∅ 0) (PInt 7) ∅ 3); reflexivity.
Defined.

(** C3, as stated, fails: two reads of an empty slot that both start before
    either getter completes invoke the getter twice. *)
Lemma cached_property_concurrent_getter_twice :
  ~ (forall st,
        CachedProp.run
          (CachedProp.__init__ (CachedProp.const_getter (PInt 7)) "answer")
          (CachedProp.fresh_loop ∅ 2)
          [CachedProp.Lookup 0; CachedProp.Start 0;
           CachedProp.Lookup 1; CachedProp.Start 1;
           CachedProp.GetterDone 0 (Ok (PInt 7));
           CachedProp.GetterDone 1 (Ok (PInt 7))] = Some st ->
        CachedProp.l_getter_calls st = 1).
Proof.
  intros C. specialize (C _ eq_refl). discriminate C.
Qed.

(** C3, amended: reads of an empty slot that start before any getter
    completes invoke the getter once each, in whatever order the [k] reads
    are looked up and started: after every run in which no getter completes,
    the instance is unchanged and the getter has been invoked once per read
    started, as many times as there are reads suspended in it, [k] times when
    all are (as after looking up and starting each in turn).  The guard of
    [__get__] is on the store only: the getter that completes first fills
    the slot, a later one leaves the slot as it is, and each read returns the
    value of its own getter. *)
Theorem cached_property_concurrent_no_dedup
    (self : CachedProp.CachedProperty) (attrs : gmap string pyobj)
    (k t t' : nat) (v v' : pyobj)
    (evs : list CachedProp.event) (st' : CachedProp.loop_state) :
  attrs !! CachedProp._name self = None ->
  t < k -> t' < k -> t <> t' ->
  (CachedProp.no_completion evs = true ->
   CachedProp.run self (CachedProp.fresh_loop attrs k) evs = Some st' ->
   CachedProp.l_attributes st' = attrs
   /\ CachedProp.l_getter_calls st' = CachedProp.starts evs
   /\ CachedProp.l_getter_calls st'
      = sum_list_with CachedProp.suspended (CachedProp.l_tasks st')
   /\ (CachedProp.l_tasks st' = replicate k CachedProp.Suspended ->
       CachedProp.l_getter_calls st' = k))
  /\ CachedProp.run self (CachedProp.fresh_loop attrs k) (CachedProp.start_from 0 k)
     = Some (CachedProp.mkLoop attrs (replicate k CachedProp.Suspended) k)
  /\ CachedProp.run self
       (CachedProp.mkLoop attrs (replicate k CachedProp.Suspended) k)
       [CachedProp.GetterDone t (Ok v); CachedProp.GetterDone t' (Ok v')]
     = Some (CachedProp.mkLoop
               (<[CachedProp._name self := CachedProp.AwaitableValue v]> attrs)
               (<[t' := CachedProp.Finished (Ok v')]>
                  (<[t := CachedProp.Finished (Ok v)]>
                     (replicate k CachedProp.Suspended)))
               k).
Proof.
  intros E Lt Lt' Ne. split; [|split].
  - intros NC R.
    destruct (run_before_completion self evs (CachedProp.fresh_loop attrs k) st')
      as (A & L & C & S); [exact E | | exact NC | exact R |].
    { simpl. apply Forall_replicate. left. reflexivity. }
    simpl in A, C, S.
    assert (Z0 : sum_list_with CachedProp.suspended
                   (replicate k CachedProp.Unread) = 0).
    { clear. induction k as [|k IH]; simpl; [reflexivity | exact IH]. }
    rewrite Z0 in S. simpl in S.
    repeat split; [exact A | exact C | congruence |].
    intros All. rewrite C, <- S, All. apply suspended_all.
  - pose proof (start_many self attrs k 0 k E (Nat.le_refl _)) as S0.
    unfold CachedProp.started in S0. rewrite Nat.sub_0_r, Nat.sub_diag in S0.
    simpl in S0. unfold CachedProp.fresh_loop. rewrite S0.
    rewrite app_nil_r. reflexivity.
  - simpl. rewrite lookup_replicate_2 by exact Lt. rewrite E. simpl.
    rewrite list_lookup_insert_ne by exact Ne.
    rewrite lookup_replicate_2 by exact Lt'.
    rewrite lookup_insert_eq. reflexivity.
Qed.

Lemma cached_property_concurrent_no_dedup_witness :
  (CachedProp.l_attributes
     (CachedProp.mkLoop ∅ [CachedProp.Suspended; CachedProp.Suspended] 2) = ∅
   /\ CachedProp.l_getter_calls
        (CachedProp.mkLoop ∅ [CachedProp.Suspended; CachedProp.Suspended] 2)
      = CachedProp.starts
          [CachedProp.Lookup 0; CachedProp.Lookup 1;
           CachedProp.Start 1; CachedProp.Start 0]
   /\ CachedProp.l_getter_calls
        (CachedProp.mkLoop ∅ [CachedProp.Suspended; CachedProp.Suspended] 2)
      = sum_list_with CachedProp.suspended
          [CachedProp.Suspended; CachedProp.Suspended]
   /\ CachedProp.l_getter_calls
        (CachedProp.mkLoop ∅ [CachedProp.Suspended; CachedProp.Suspended] 2) = 2)
  /\ CachedProp.run
       (CachedProp.__init__ (CachedProp.const_getter (PInt 7)) "answer")
       (CachedProp.fresh_loop ∅ 2) (CachedProp.start_from 0 2)
     = Some (CachedProp.mkLoop ∅ [CachedProp.Suspended; CachedProp.Suspended] 2)
  /\ CachedProp.run
       (CachedProp.__init__ (CachedProp.const_getter (PInt 7)) "answer")
       (CachedProp.mkLoop ∅ [CachedProp.Suspended; CachedProp.Suspended] 2)
       [CachedProp.GetterDone 1 (Ok (PInt 8)); CachedProp.GetterDone 0 (Ok (PInt 9))]
     = Some (CachedProp.mkLoop
               (<["answer" := CachedProp.AwaitableValue (PInt 8)]> ∅)
               [CachedProp.Finished (Ok (PInt 9)); CachedProp.Finished (Ok (PInt 8))]
               2).
Proof.
  destruct (cached_property_concurrent_no_dedup
              (CachedProp.__init__ (CachedProp.const_getter (PInt 7)) "answer")
              ∅ 2 1 0 (PInt 8) (PInt 9)
              [CachedProp.Lookup 0; CachedProp.Lookup 1;
               CachedProp.Start 1; CachedProp.Start 0]
              (CachedProp.mkLoop ∅ [CachedProp.Suspended; CachedProp.Suspended] 2))
    as (Any & Turn & Done).
  - reflexivity.
  - lia.
  - lia.
  - lia.
  - destruct (Any eq_refl eq_refl) as (A & C & S & K).
    split; [|split; [exact Turn | exact Done]].
    split; [exact A|]. split; [exact C|]. split; [exact S|].
    apply K. reflexivity.
Defined.

(** ** merge *)

Section MergeProperties.

Import Heapq.

(** With [key=None], [from_iters] fails at the first iterable that has an
    item: it calls [key] whatever [key] is. *)
Lemma from_iters_without_key (iterables : list (list Z)) (reverse : bool) :
  forall n,
    from_iters iterables reverse None n
    = if forallb (fun it => match it with [] => true | _ => false end) iterables
      then Ok []
      else Raise (TypeError "'NoneType' object is not callable").
Proof.
  induction iterables as [|it rest IH]; intros n; simpl.
  - reflexivity.
  - destruct it as [|x it']; simpl.
    + apply IH.
    + reflexivity.
Qed.

End MergeProperties.

(** C2: with the default [key=None], [merge] yields nothing whatever the
    input is, and unless every iterable is empty it ends with a [TypeError]:
    [from_iters] calls [key] for the first item it meets.  For the sorted
    streams [1, 3] and [2] the merged stream [1, 2, 3] followed by the
    regular end is not produced. *)
Theorem merge_default_key_raises (iterables : list (list Z)) (reverse : bool) :
  Heapq.merge iterables None reverse
  = Some ([], if forallb (fun it => match it with [] => true | _ => false end) iterables
              then Ok tt
              else Raise (TypeError "'NoneType' object is not callable"))
  /\ Heapq.merge [[1; 3]; [2]]%Z None false
     = Some ([], Raise (TypeError "'NoneType' object is not callable")).
Proof.
  split; [|reflexivity].
  unfold Heapq.merge. rewrite from_iters_without_key.
  destruct (forallb _ iterables); reflexivity.
Qed.

(** The loop of [merge] has no [break]: where the keys can be compared, two
    streams are merged and the end is an [IndexError]. *)
Lemma merge_ends_with_IndexError (f : Z -> Z) (x y : Z) :
  Heapq.merge [[x]; [y]] (Some (Heapq.AsyncKey f)) false
  = Some (if (f x <? f y)%Z then [x; y] else [y; x],
          Raise (IndexError "list index out of range")).
Proof. cbv -[Z.ltb]. destruct (f x <? f y)%Z; reflexivity. Qed.

(** A single stream is passed through. *)
Example merge_single_stream :
  Heapq.merge [[1; 2; 3]; []]%Z (Some Heapq.async_identity) false
  = Some ([1; 2; 3]%Z, Ok tt).
Proof. reflexivity. Qed.

(** C7: the two places that compute a key call [key] differently.  For an
    [async] key, [from_iters] awaits the key of the first item of an iterable
    and [pull_head] leaves the key of the next item as a coroutine; for a
    plain key, which is what [pull_head] can use, [from_iters] fails at its
    [await].  So with an [async] key the merge of two streams of two items
    or more ends at the first comparison after a pull, after one item, as
    that of [1, 3] and [2] does, and with a plain key nothing is yielded. *)
Theorem merge_key_calling_convention_differs
    (f : Z -> Z) (x y z w : Z) (rest rest' : list Z) (others : list (list Z))
    (reverse : bool) (n : nat) :
  Heapq.from_iters [x :: y :: rest] reverse (Some (Heapq.AsyncKey f)) n
  = Ok [Heapq.mkKeyIter n x (y :: rest) reverse (Heapq.KPlain (f x))
          (Some (Heapq.AsyncKey f))]
  /\ Heapq.pull_head
       (Heapq.mkKeyIter n x (y :: rest) reverse (Heapq.KPlain (f x))
          (Some (Heapq.AsyncKey f)))
     = Ok (true, Heapq.mkKeyIter n y rest reverse (Heapq.KCoroutine (f y))
                   (Some (Heapq.AsyncKey f)))
  /\ Heapq.from_iters ((x :: rest) :: others) reverse (Some (Heapq.SyncKey f)) n
     = Raise (TypeError "object int can't be used in 'await' expression")
  /\ Heapq.merge [x :: y :: rest; z :: w :: rest'] (Some (Heapq.AsyncKey f)) reverse
     = Some ([if xorb reverse (f x <? f z)%Z then x else z],
             Raise (TypeError "'<' not supported between instances"))
  /\ Heapq.merge [[1; 3]; [2]]%Z (Some Heapq.async_identity) false
     = Some ([1]%Z, Raise (TypeError "'<' not supported between instances"))
  /\ Heapq.merge [[1; 3]; [2]]%Z (Some Heapq.sync_identity) false
     = Some ([], Raise (TypeError "object int can't be used in 'await' expression")).
Proof.
  split.
  { (* the key of the first item: called, then awaited *)
    unfold Heapq.from_iters, anext, Heapq.call_key, Heapq.await_key. reflexivity. }
  split.
  { (* the key of the next item: called, not awaited *)
    unfold Heapq.pull_head, anext. cbn [Heapq.tail Heapq.key Heapq.call_key].
    reflexivity. }
  split.
  { (* a plain key gives nothing to await *)
    unfold Heapq.from_iters, anext, Heapq.call_key, Heapq.await_key. reflexivity. }
  split.
  { (* the heap is built on awaited keys; the pulled item brings a coroutine *)
    destruct reverse; cbv -[Z.ltb]; destruct (f x <? f z)%Z; reflexivity. }
  split; reflexivity.
Qed.

(** ** lru_cache *)

Section LruProperties.

Import LruCache.

Context {K : Type} `{Countable K} {V : Type}.

Implicit Types (k key : K) (log : list K) (es : list (K * V)).

(** *** Lists of keys *)

Lemma filter_ne_notin k (l : list K) :
  k ∉ l -> filter (fun x => x <> k) l = l.
Proof.
  induction l as [|x l IH]; intros N; [reflexivity|].
  apply not_elem_of_cons in N as [N1 N2].
  rewrite filter_cons_True by congruence. rewrite IH by exact N2. reflexivity.
Qed.

Lemma keys_remove_key key es :
  (remove_key key es).*1 = filter (fun x => x <> key) (es.*1).
Proof.
  unfold remove_key. induction es as [|[k v] es IH]; [reflexivity|].
  rewrite fmap_cons. destruct (decide (k = key)) as [->|N].
  - rewrite filter_cons_False by (simpl; tauto).
    rewrite filter_cons_False by (simpl; tauto). exact IH.
  - rewrite filter_cons_True by (simpl; exact N).
    rewrite filter_cons_True by (simpl; exact N).
    rewrite fmap_cons, IH. reflexivity.
Qed.

Lemma assoc_None key es : assoc key es = None <-> key ∉ es.*1.
Proof.
  induction es as [|[k v] es IH]; simpl.
  - split; [intros _; apply not_elem_of_nil | reflexivity].
  - destruct (decide (k = key)) as [->|N].
    + split; [discriminate|]. intros C. exfalso. apply C. left.
    + rewrite IH. rewrite not_elem_of_cons.
      split; [intros ?; split; [intros ->; apply N; reflexivity | assumption] | tauto].
Qed.

Lemma assoc_Some_elem key es v : assoc key es = Some v -> key ∈ es.*1.
Proof.
  intros E. destruct (decide (key ∈ es.*1)) as [I|N]; [exact I|].
  apply assoc_None in N. congruence.
Qed.

Lemma recency_elem k log : k ∈ recency log <-> k ∈ log.
Proof.
  induction log as [|x older IH]; simpl; [reflexivity|].
  rewrite !elem_of_cons, list_elem_of_filter, IH.
  destruct (decide (k = x)); tauto.
Qed.

Lemma recency_NoDup log : NoDup (recency log).
Proof.
  induction log as [|x older IH]; simpl; [constructor|].
  constructor.
  - rewrite list_elem_of_filter. tauto.
  - apply NoDup_filter. exact IH.
Qed.

(** Moving a stored key to the front keeps the [S n] most recent keys. *)
Lemma filter_take_elem k (r : list K) :
  forall n, NoDup r -> k ∈ take (S n) r ->
    filter (fun x => x <> k) (take (S n) r) = take n (filter (fun x => x <> k) r).
Proof.
  induction r as [|x r IH]; intros n ND I.
  - rewrite take_nil in I. inversion I.
  - apply NoDup_cons in ND as [Nx ND]. simpl take.
    destruct (decide (x = k)) as [->|N].
    + rewrite !filter_cons_False by tauto.
      rewrite !filter_ne_notin; [reflexivity | exact Nx |].
      intros C. apply Nx. apply elem_of_take in C as (i & L & _).
      eapply list_elem_of_lookup_2. exact L.
    + rewrite !filter_cons_True by exact N.
      simpl in I. apply elem_of_cons in I as [->|I]; [congruence|].
      destruct n as [|n]; [rewrite take_0 in I; inversion I|].
      simpl. f_equal. apply IH; assumption.
Qed.

(** A key that is not stored pushes the others back by one place. *)
Lemma filter_take_notin k (r : list K) :
  forall n, k ∉ take (S n) r ->
    take n (filter (fun x => x <> k) r) = take n r.
Proof.
  induction r as [|x r IH]; intros n N.
  - reflexivity.
  - simpl in N. apply not_elem_of_cons in N as [N1 N2].
    rewrite filter_cons_True by congruence.
    destruct n as [|n]; [reflexivity|].
    simpl. f_equal. apply IH. exact N2.
Qed.

Lemma removelast_take_S (r : list K) n :
  n < length r -> removelast (take (S n) r) = take n r.
Proof. apply removelast_firstn. Qed.

Lemma take_S_short (r : list K) n :
  length (take (S n) r) <= n -> take (S n) r = take n r.
Proof.
  rewrite length_take. intros L.
  assert (Lr : length r <= n) by lia.
  rewrite !take_ge by lia. reflexivity.
Qed.

(** The keys by recency are in the order of their ages. *)
Lemma StronglySorted_filter_keys (R : relation K) (P : K -> Prop)
    `{forall x, Decision (P x)} (l : list K) :
  StronglySorted R l -> StronglySorted R (filter P l).
Proof.
  induction 1 as [|x l S IH F]; [constructor|].
  destruct (decide (P x)).
  - rewrite filter_cons_True by assumption. constructor; [exact IH|].
    apply Forall_forall. intros y I. apply list_elem_of_filter in I as [_ I].
    rewrite Forall_forall in F. apply F. exact I.
  - rewrite filter_cons_False by assumption. exact IH.
Qed.

Lemma StronglySorted_restrict (R R' : relation K) (l : list K) :
  (forall a b, a ∈ l -> b ∈ l -> R a b -> R' a b) ->
  StronglySorted R l -> StronglySorted R' l.
Proof.
  intros Imp S. induction S as [|x l S IH F]; [constructor|].
  constructor.
  - apply IH. intros a b Ia Ib. apply Imp; right; assumption.
  - apply Forall_forall. intros y I. rewrite Forall_forall in F.
    apply Imp; [left | right; exact I | apply F; exact I].
Qed.

Lemma recency_sorted_by_age log :
  StronglySorted (fun a b => age a log < age b log) (recency log).
Proof.
  induction log as [|k older IH]; simpl; [constructor|].
  constructor.
  - apply (StronglySorted_restrict (fun a b => age a older < age b older)).
    + intros a b Ia Ib Lt.
      apply list_elem_of_filter in Ia as [Na _].
      apply list_elem_of_filter in Ib as [Nb _].
      rewrite !decide_False by congruence. lia.
    + apply StronglySorted_filter_keys. exact IH.
  - apply Forall_forall. intros y I. apply list_elem_of_filter in I as [Ny _].
    rewrite decide_True by reflexivity. rewrite decide_False by congruence. lia.
Qed.

(** *** The store *)

Lemma fmap_removelast {A B} (f : A -> B) (l : list A) :
  f <$> removelast l = removelast (f <$> l).
Proof.
  induction l as [|x l IH]; [reflexivity|].
  destruct l as [|y l]; [reflexivity|].
  change (removelast (x :: y :: l)) with (x :: removelast (y :: l)).
  rewrite !fmap_cons. rewrite IH. reflexivity.
Qed.

Lemma get_None (s : LRUStore K V) key : get s key = None <-> key ∉ keys s.
Proof.
  unfold get, keys. rewrite <- assoc_None.
  destruct (assoc key (entries s)); split; congruence.
Qed.

Lemma get_Some (s s' : LRUStore K V) key v :
  get s key = Some (v, s') ->
  key ∈ keys s
  /\ keys s' = key :: filter (fun x => x <> key) (keys s)
  /\ max_size s' = max_size s.
Proof.
  unfold get, keys. destruct (assoc key (entries s)) as [v'|] eqn:E; [|discriminate].
  intros [= <- <-]. split; [eapply assoc_Some_elem; exact E|].
  simpl. rewrite keys_remove_key. split; reflexivity.
Qed.

(** The keys after [put]: the new key in front, and the last key dropped
    when that makes one too many. *)
Lemma put_keys (s : LRUStore K V) key v :
  keys (put s key v).1
  = (let ks := key :: filter (fun x => x <> key) (keys s) in
     match max_size s with
     | Some n => if n <? length ks then removelast ks else ks
     | None => ks
     end)
  /\ max_size (put s key v).1 = max_size s.
Proof.
  unfold put, keys. cbv zeta.
  assert (L : length ((key, v) :: remove_key key (entries s))
              = length (key :: filter (fun x => x <> key) ((entries s).*1))).
  { rewrite <- keys_remove_key. simpl. rewrite length_fmap. reflexivity. }
  destruct (max_size s) as [n|] eqn:M.
  - rewrite L. destruct (n <? _); cbn [fst entries max_size].
    + rewrite (fmap_removelast fst ((key, v) :: remove_key key (entries s))).
      rewrite fmap_cons, keys_remove_key. split; reflexivity.
    + rewrite fmap_cons, keys_remove_key. split; reflexivity.
  - cbn [fst entries max_size]. rewrite fmap_cons, keys_remove_key. split; reflexivity.
Qed.

Lemma get_recency (s s' : LRUStore K V) key v log N :
  keys s = take N (recency log) ->
  get s key = Some (v, s') ->
  keys s' = take N (recency (key :: log)).
Proof.
  intros E G. apply get_Some in G as (I & -> & _). rewrite E in *.
  destruct N as [|n]; [rewrite take_0 in I; inversion I|].
  simpl. f_equal. apply filter_take_elem; [apply recency_NoDup | exact I].
Qed.

Lemma put_recency (s : LRUStore K V) key v log N :
  keys s = take N (recency log) ->
  max_size s = Some N ->
  keys (put s key v).1 = take N (recency (key :: log)).
Proof.
  intros E M. destruct (put_keys s key v) as [-> _]. rewrite M, E. cbv zeta.
  destruct N as [|n].
  - rewrite take_0. reflexivity.
  - simpl recency. rewrite firstn_cons.
    destruct (decide (key ∈ take (S n) (recency log))) as [I|NI].
    + rewrite filter_take_elem by (apply recency_NoDup || exact I).
      assert (L : length (key :: take n (filter (fun x => x <> key) (recency log)))
                  <= S n).
      { simpl. rewrite length_take. lia. }
      apply Nat.ltb_ge in L. rewrite L. reflexivity.
    + rewrite (filter_ne_notin key (take (S n) (recency log))) by exact NI.
      rewrite (filter_take_notin key (recency log) n) by exact NI.
      destruct (S n <? length (key :: take (S n) (recency log))) eqn:C.
      * apply Nat.ltb_lt in C. simpl in C. rewrite length_take in C.
        assert (Lr : n < length (recency log)) by lia.
        destruct (recency log) as [|x r] eqn:R; [simpl in Lr; lia|].
        change (removelast (key :: take (S n) (x :: r)))
          with (key :: removelast (take (S n) (x :: r))).
        rewrite removelast_take_S by exact Lr. reflexivity.
      * apply Nat.ltb_ge in C. simpl in C.
        rewrite take_S_short by lia. reflexivity.
Qed.

(** *** Sequential runs *)

Lemma call_hit (st : cache K V) key outcome v s' :
  get (store st) key = Some (v, s') ->
  call st key outcome
  = Some (Ok v, mkCache s' (pending st) (futures st) (next_future st)
                        (S (hits st)) (misses st) (invocations st)
                        (key :: accesses st)).
Proof. intros G. unfold call, begin_call. rewrite G. reflexivity. Qed.

Lemma call_miss (st : cache K V) key outcome :
  get (store st) key = None ->
  pending st !! key = None ->
  call st key outcome
  = Some (outcome,
          mkCache (match outcome with
                   | Ok v => (put (store st) key v).1
                   | Raise _ => store st
                   end)
                  (pending st)
                  (<[next_future st := Resolved outcome]>
                     (<[next_future st := Running key]> (futures st)))
                  (S (next_future st)) (hits st) (S (misses st))
                  (invocations st ++ [key])
                  (match outcome with
                   | Ok _ => key :: accesses st
                   | Raise _ => accesses st
                   end)).
Proof.
  intros G P. unfold call, begin_call. rewrite G, P.
  unfold complete. cbn [pending store accesses futures next_future hits misses
                        invocations].
  rewrite lookup_insert_eq, delete_insert_eq, (delete_id _ _ P).
  destruct outcome; reflexivity.
Qed.

Lemma lru_cache_between_calls (N : nat) :
  between_calls N (lru_cache (K := K) (V := V) (Some N)).
Proof.
  unfold between_calls, lru_cache, keys. simpl.
  rewrite take_nil. auto.
Qed.

Lemma call_between_calls N (st : cache K V) key outcome :
  between_calls N st ->
  exists r st',
    call st key outcome = Some (r, st')
    /\ between_calls N st'
    /\ (forall v, outcome = Ok v -> accesses st' = key :: accesses st).
Proof.
  intros (M & P & E).
  destruct (get (store st) key) as [[v s']|] eqn:G.
  - eexists _, _. split; [apply call_hit; exact G|].
    split; [|reflexivity].
    unfold between_calls. simpl. split; [|split].
    + apply get_Some in G as (_ & _ & ->). exact M.
    + exact P.
    + eapply get_recency; eassumption.
  - eexists _, _. split; [apply call_miss; [exact G | rewrite P; apply lookup_empty]|].
    split; [|intros v ->; reflexivity].
    unfold between_calls. cbn [store pending accesses].
    destruct outcome as [v|e].
    + split; [|split].
      * destruct (put_keys (store st) key v) as [_ ->]. exact M.
      * exact P.
      * apply put_recency; assumption.
    + auto.
Qed.

Lemma cache_clear_between_calls N (st : cache K V) :
  between_calls N st -> between_calls N (cache_clear st).
Proof.
  intros (M & P & E). unfold between_calls, cache_clear, keys. simpl.
  rewrite take_nil. auto.
Qed.

Lemma run_ops_between_calls N (ops : list (op K V)) :
  forall st, between_calls N st ->
    exists st',
      run_ops st ops = Some st'
      /\ between_calls N st'
      /\ (all_succeed ops = true ->
          accesses st' = rev (called_keys ops) ++ accesses st).
Proof.
  induction ops as [|o ops IH]; intros st B.
  - exists st. simpl. auto.
  - destruct o as [key outcome|].
    + destruct (call_between_calls N st key outcome B) as (r & st1 & C & B1 & A1).
      destruct (IH st1 B1) as (st' & R & B' & A').
      exists st'. simpl. rewrite C. simpl. split; [exact R|]. split; [exact B'|].
      intros S. destruct outcome as [v|e]; [|discriminate].
      rewrite A' by exact S. rewrite (A1 v eq_refl).
      rewrite <- app_assoc. reflexivity.
    + destruct (IH _ (cache_clear_between_calls N st B)) as (st' & R & B' & A').
      exists st'. simpl. split; [exact R|]. split; [exact B'|]. discriminate.
Qed.

(** The key a call drops from the store is older than every key it keeps. *)
Lemma call_evicts_oldest N (st st' : cache K V) key outcome r e :
  between_calls N st ->
  call st key outcome = Some (r, st') ->
  e ∈ keys (store st) -> e ∉ keys (store st') ->
  forall k', k' ∈ keys (store st) -> k' <> e ->
    age k' (accesses st) < age e (accesses st).
Proof.
  intros (M & P & E) C Ie Ne k' Ik' Nk'.
  destruct (get (store st) key) as [[v s']|] eqn:G.
  - rewrite (call_hit st key outcome v s' G) in C. injection C as _ <-.
    exfalso. apply Ne. simpl. apply get_Some in G as (_ & -> & _).
    destruct (decide (e = key)) as [->|D]; [left|].
    right. apply list_elem_of_filter. auto.
  - rewrite (call_miss st key outcome G) in C by (rewrite P; apply lookup_empty).
    injection C as _ <-. cbn [store] in Ne.
    destruct outcome as [v|x]; [|contradiction].
    destruct (put_keys (store st) key v) as [Kp _]. rewrite Kp in Ne. clear Kp.
    apply get_None in G. rewrite (filter_ne_notin key _ G) in Ne.
    rewrite M in Ne. cbv zeta in Ne.
    destruct (N <? length (key :: keys (store st))).
    + assert (NE : keys (store st) <> []) by (intros Z; rewrite Z in Ie; inversion Ie).
      pose proof (app_removelast_last e NE) as D.
      destruct (keys (store st)) as [|x l] eqn:Ks; [congruence|].
      change (removelast (key :: x :: l)) with (key :: removelast (x :: l)) in Ne.
      apply not_elem_of_cons in Ne as [_ Ne].
      assert (Le : List.last (x :: l) e = e).
      { rewrite D in Ie. apply elem_of_app in Ie as [Ie|Ie]; [contradiction|].
        apply list_elem_of_singleton in Ie. congruence. }
      rewrite Le in D.
      assert (Ik : k' ∈ removelast (x :: l)).
      { rewrite D in Ik'. apply elem_of_app in Ik' as [Ik'|Ik']; [exact Ik'|].
        apply list_elem_of_singleton in Ik'. contradiction. }
      pose proof (recency_sorted_by_age (accesses st)) as S.
      rewrite <- (take_drop N (recency (accesses st))), <- E, D, <- app_assoc in S.
      eapply (StronglySorted_app_1_elem_of _ _ _ k' e S); [exact Ik | left].
    + exfalso. apply Ne. right. exact Ie.
Qed.

End LruProperties.

(** C4: after every sequence of sequential calls (and clears) on a cache of
    capacity [N], the store holds at most [N] keys, and they are the first
    [N] keys of the accesses by recency, an access being a hit or an
    insertion; when every call succeeds the accesses are the calls.  A key
    that the next call drops from the store was accessed before every other
    stored key. *)
Theorem lru_store_holds_most_recent_keys
    {K : Type} `{Countable K} {V : Type} (N : nat) (ops : list (LruCache.op K V)) :
  exists st,
    LruCache.run_ops (LruCache.lru_cache (Some N)) ops = Some st
    /\ LruCache.size (LruCache.store st) <= N
    /\ LruCache.keys (LruCache.store st)
       = take N (LruCache.recency (LruCache.accesses st))
    /\ (LruCache.all_succeed ops = true ->
        LruCache.accesses st = rev (LruCache.called_keys ops))
    /\ (forall key outcome r st' evicted,
          LruCache.call st key outcome = Some (r, st') ->
          evicted ∈ LruCache.keys (LruCache.store st) ->
          evicted ∉ LruCache.keys (LruCache.store st') ->
          forall k, k ∈ LruCache.keys (LruCache.store st) -> k <> evicted ->
            LruCache.age k (LruCache.accesses st)
            < LruCache.age evicted (LruCache.accesses st)).
Proof.
  destruct (run_ops_between_calls N ops _ (lru_cache_between_calls N))
    as (st & R & B & A).
  exists st. split; [exact R|].
  pose proof B as (M & P & E).
  split; [|split; [exact E|split]].
  - unfold LruCache.size. unfold LruCache.keys in E.
    rewrite <- (length_fmap fst), E, length_take. lia.
  - intros S. rewrite (A S). simpl. apply app_nil_r.
  - intros key outcome r st' evicted C. eapply call_evicts_oldest; eassumption.
Qed.

Lemma lru_store_holds_most_recent_keys_witness :
  exists st : LruCache.cache nat nat,
    LruCache.run_ops (LruCache.lru_cache (Some 2))
      [LruCache.OpCall 1 (Ok 10); LruCache.OpCall 2 (Ok 20); LruCache.OpCall 1 (Ok 10)]
    = Some st
    /\ LruCache.keys (LruCache.store st) = [1; 2]
    /\ LruCache.age 1 (LruCache.accesses st) < LruCache.age 2 (LruCache.accesses st).
Proof.
  destruct (lru_store_holds_most_recent_keys (V := nat) 2
              [LruCache.OpCall 1 (Ok 10); LruCache.OpCall 2 (Ok 20);
               LruCache.OpCall 1 (Ok 10)])
    as (st & R & _ & Ks & A & Ev).
  exists st. split; [exact R|].
  specialize (A eq_refl). rewrite A in Ks. split; [exact Ks|].
  destruct (call_between_calls 2 st 3 (Ok 30)) as (r & st' & C & (_ & _ & Ks') & A').
  { repeat split.
    - vm_compute in R. injection R as <-. reflexivity.
    - vm_compute in R. injection R as <-. reflexivity.
    - rewrite Ks, A. reflexivity. }
  apply (Ev 3 (Ok 30) r st' 2 C).
  - rewrite Ks. right. left.
  - rewrite Ks', (A' 30 eq_refl), A. vm_compute.
    intros I. apply elem_of_cons in I as [I|I]; [discriminate|].
    apply elem_of_cons in I as [I|I]; [discriminate|]. inversion I.
  - rewrite Ks. left.
  - discriminate.
Defined.

(** The scenario of the spec: capacity 2 and the keys a, b, a, c; the call
    of c drops b, not a. *)
Example lru_eviction_order :
  exists st : LruCache.cache nat nat,
    LruCache.run_ops (LruCache.lru_cache (Some 2))
      [LruCache.OpCall 1 (Ok 10); LruCache.OpCall 2 (Ok 20);
       LruCache.OpCall 1 (Ok 10); LruCache.OpCall 3 (Ok 30)] = Some st
    /\ LruCache.keys (LruCache.store st) = [3; 1].
Proof. eexists. split; vm_compute; reflexivity. Qed.

(** The scenario of the spec: capacity 4; the keys 0, 1, 2, 3 miss four
    times; called again they hit four times; the key 4 then misses and takes
    the place of the key 0. *)
Example lru_concrete_scenario :
  LruCache.cache_info
    <$> LruCache.run_ops (LruCache.lru_cache (Some 4)) (LruCache.pingpong [0; 1; 2; 3])
  = Some (LruCache.mkInfo 0 4 (Some 4) 4)
  /\ LruCache.cache_info
        <$> LruCache.run_ops (LruCache.lru_cache (Some 4))
              (LruCache.pingpong [0; 1; 2; 3; 2; 0; 3; 1])
      = Some (LruCache.mkInfo 4 4 (Some 4) 4)
  /\ (fun st => (LruCache.cache_info st, LruCache.keys (LruCache.store st)))
        <$> LruCache.run_ops (LruCache.lru_cache (Some 4))
              (LruCache.pingpong [0; 1; 2; 3; 0; 1; 2; 3; 4])
      = Some (LruCache.mkInfo 4 5 (Some 4) 4, [4; 3; 2; 1]).
Proof. repeat split; vm_compute; reflexivity. Qed.

(** The run of [test_lru_cache_bounded]: four misses; five rounds of hits
    with no further invocation; five rounds over five keys in four places,
    every call invoking the function; and the counters after
    [cache_clear()]. *)
Example lru_test_bounded :
  (fun st => (LruCache.hits st, LruCache.misses st))
    <$> LruCache.run_ops (LruCache.lru_cache (Some 4)) (LruCache.pingpong [0; 1; 2; 3])
  = Some (0, 4)
  /\ (fun st => (LruCache.hits st, length (LruCache.invocations st)))
        <$> LruCache.run_ops (LruCache.lru_cache (Some 4))
              (LruCache.pingpong [0; 1; 2; 3] ++ LruCache.rounds 5 [0; 1; 2; 3])
      = Some (20, 4)
  /\ (fun st => (length (LruCache.invocations st),
                 LruCache.hits (LruCache.cache_clear st),
                 LruCache.misses (LruCache.cache_clear st)))
        <$> LruCache.run_ops (LruCache.lru_cache (Some 4))
              (LruCache.pingpong [0; 1; 2; 3] ++ LruCache.rounds 5 [0; 1; 2; 3]
               ++ LruCache.rounds 5 [4; 5; 6; 7; 8])
      = Some (5 * 5 + 4, 0, 0).
Proof. repeat split; vm_compute; reflexivity. Qed.

Section LruCounters.

Import LruCache.

Context {K : Type} `{Countable K} {V : Type}.

Variable maxsize : option nat.
Hypothesis maxsize_positive : forall n, maxsize = Some n -> 0 < n.

(** The first entry fits in the empty store. *)
Lemma put_first (key : K) (v : V) :
  put (mkStore [] maxsize) key v = (mkStore [(key, v)] maxsize, None).
Proof.
  unfold put. simpl. destruct maxsize as [n|] eqn:M; [|reflexivity].
  specialize (maxsize_positive n eq_refl).
  destruct (n <? 1) eqn:C; [apply Nat.ltb_lt in C; lia | reflexivity].
Qed.

Lemma get_first (key : K) (v : V) :
  get (mkStore [(key, v)] maxsize) key = Some (v, mkStore [(key, v)] maxsize).
Proof.
  unfold get, remove_key. simpl. rewrite decide_True by reflexivity.
  rewrite filter_cons_False by (simpl; tauto). reflexivity.
Qed.

Lemma first_call (key : K) (outcome : result V) :
  call (lru_cache maxsize) key outcome
  = Some (outcome,
          mkCache (match outcome with
                   | Ok v => mkStore [(key, v)] maxsize
                   | Raise _ => mkStore [] maxsize
                   end)
                  ∅ (<[0 := Resolved outcome]> (<[0 := Running key]> ∅)) 1 0 1 [key]
                  (match outcome with Ok _ => [key] | Raise _ => [] end)).
Proof.
  rewrite call_miss by reflexivity. simpl.
  destruct outcome as [v|e]; [rewrite put_first|]; reflexivity.
Qed.

End LruCounters.

Lemma invoked_app {K : Type} `{EqDecision K} (key k : K) (l : list K) :
  length (filter (fun x => x = key) (l ++ [k]))
  = length (filter (fun x => x = key) l) + (if decide (k = key) then 1 else 0).
Proof.
  rewrite filter_app, length_app. f_equal.
  destruct (decide (k = key)) as [E|N].
  - rewrite filter_cons_True by exact E. reflexivity.
  - rewrite filter_cons_False by exact N. reflexivity.
Qed.

(** C6: on a fresh cache whose capacity is unbounded or positive, the same
    call issued twice gives [misses == 1] and [hits == 1], the second call
    returning the cached value without an invocation; [cache_clear()] on any
    cache sets both counters to 0 and leaves an empty store,
    [current_size == 0]. *)
Theorem lru_cache_same_call_twice
    {K : Type} `{Countable K} {V : Type}
    (maxsize : option nat) (key : K) (v : V) (outcome : result V) :
  (forall n, maxsize = Some n -> 0 < n) ->
  (exists st1 st2,
      LruCache.call (LruCache.lru_cache maxsize) key (Ok v) = Some (Ok v, st1)
      /\ LruCache.call st1 key outcome = Some (Ok v, st2)
      /\ LruCache.info_misses (LruCache.cache_info st2) = 1
      /\ LruCache.info_hits (LruCache.cache_info st2) = 1
      /\ LruCache.invocations st2 = [key])
  /\ (forall st : LruCache.cache K V,
        LruCache.info_hits (LruCache.cache_info (LruCache.cache_clear st)) = 0
        /\ LruCache.info_misses (LruCache.cache_info (LruCache.cache_clear st)) = 0
        /\ LruCache.info_current_size (LruCache.cache_info (LruCache.cache_clear st)) = 0
        /\ LruCache.entries (LruCache.store (LruCache.cache_clear st)) = []).
Proof.
  intros Pos. split.
  - eexists _, _. split; [apply (first_call maxsize Pos key (Ok v))|].
    split.
    + apply call_hit. cbn [LruCache.store]. apply get_first.
    + simpl. auto.
  - intros st. simpl. auto.
Qed.

Lemma lru_cache_same_call_twice_witness :
  (exists st1 st2 : LruCache.cache nat nat,
      LruCache.call (LruCache.lru_cache (Some 4)) 0 (Ok 0) = Some (Ok 0, st1)
      /\ LruCache.call st1 0 (Raise (UserError "not called")) = Some (Ok 0, st2)
      /\ LruCache.info_misses (LruCache.cache_info st2) = 1
      /\ LruCache.info_hits (LruCache.cache_info st2) = 1
      /\ LruCache.invocations st2 = [0])
  /\ (forall st : LruCache.cache nat nat,
        LruCache.info_hits (LruCache.cache_info (LruCache.cache_clear st)) = 0
        /\ LruCache.info_misses (LruCache.cache_info (LruCache.cache_clear st)) = 0
        /\ LruCache.info_current_size (LruCache.cache_info (LruCache.cache_clear st)) = 0
        /\ LruCache.entries (LruCache.store (LruCache.cache_clear st)) = []).
Proof.
  apply (lru_cache_same_call_twice (Some 4) 0 0 (Raise (UserError "not called"))).
  intros n [= <-]. lia.
Defined.

(** C5: a failure is not cached.  In sequence, on a fresh cache: the failing
    call returns the failure and stores nothing; the same call succeeding
    next invokes the function again, and then [misses == 2], [hits == 0] and
    the value is stored.  With waiters: when the pending call of [key] fails,
    the store stays as it was, the key is no longer pending, every caller
    waiting on that call resumes with the failure, and the next call of the
    key invokes the function again. *)
Theorem lru_cache_failure_not_cached
    {K : Type} `{Countable K} {V : Type}
    (maxsize : option nat) (key : K) (e : exn) (v : V) :
  (forall n, maxsize = Some n -> 0 < n) ->
  (exists st1 st2,
      LruCache.call (LruCache.lru_cache maxsize) key (Raise e) = Some (Raise e, st1)
      /\ LruCache.entries (LruCache.store st1) = []
      /\ LruCache.call st1 key (Ok v) = Some (Ok v, st2)
      /\ LruCache.invocations st2 = [key; key]
      /\ LruCache.info_misses (LruCache.cache_info st2) = 2
      /\ LruCache.info_hits (LruCache.cache_info st2) = 0
      /\ LruCache.entries (LruCache.store st2) = [(key, v)])
  /\ (forall (sys : LruCache.system K V) (fut : nat),
        LruCache.pending (LruCache.the_cache sys) !! key = Some fut ->
        exists sys',
          LruCache.step sys (LruCache.Complete key (Raise e)) = Some sys'
          /\ LruCache.store (LruCache.the_cache sys')
             = LruCache.store (LruCache.the_cache sys)
          /\ LruCache.pending (LruCache.the_cache sys') !! key = None
          /\ (forall c, LruCache.callers sys !! c = Some (LruCache.Waiting fut) ->
                exists sys'',
                  LruCache.step sys' (LruCache.Resume c) = Some sys''
                  /\ LruCache.callers sys'' !! c = Some (LruCache.Done (Raise e)))
          /\ (key ∉ LruCache.keys (LruCache.store (LruCache.the_cache sys)) ->
              forall c, LruCache.callers sys !! c = None ->
                exists sys'' fut',
                  LruCache.step sys' (LruCache.Call c key) = Some sys''
                  /\ LruCache.invoked key (LruCache.the_cache sys'')
                     = S (LruCache.invoked key (LruCache.the_cache sys))
                  /\ LruCache.callers sys'' !! c = Some (LruCache.Waiting fut'))).
Proof.
  intros Pos. split.
  - eexists _, _. split; [apply (first_call maxsize Pos key (Raise e))|].
    split; [reflexivity|]. split.
    + rewrite call_miss by (reflexivity || apply lookup_empty).
      cbn [LruCache.store]. rewrite (put_first maxsize Pos). reflexivity.
    + simpl. auto.
  - intros sys fut P.
    eexists. split.
    { simpl. unfold LruCache.complete. rewrite P. reflexivity. }
    cbn [LruCache.the_cache LruCache.store LruCache.pending LruCache.callers].
    split; [reflexivity|]. split; [apply lookup_delete_eq|]. split.
    + intros c W. eexists. split.
      * simpl. rewrite W. rewrite lookup_insert_eq. reflexivity.
      * simpl. apply lookup_insert_eq.
    + intros N c F. eexists _, _. split.
      * simpl. rewrite F. unfold LruCache.begin_call.
        cbn [LruCache.store LruCache.pending].
        apply get_None in N. rewrite N. rewrite lookup_delete_eq. reflexivity.
      * split.
        -- unfold LruCache.invoked. simpl.
           rewrite invoked_app.
           rewrite decide_True by reflexivity. lia.
        -- simpl. apply lookup_insert_eq.
Qed.

Lemma lru_cache_failure_not_cached_witness :
  (exists st1 st2 : LruCache.cache nat nat,
      LruCache.call (LruCache.lru_cache (Some 4)) 5 (Raise (UserError "down"))
      = Some (Raise (UserError "down"), st1)
      /\ LruCache.entries (LruCache.store st1) = []
      /\ LruCache.call st1 5 (Ok 25) = Some (Ok 25, st2)
      /\ LruCache.invocations st2 = [5; 5]
      /\ LruCache.info_misses (LruCache.cache_info st2) = 2
      /\ LruCache.info_hits (LruCache.cache_info st2) = 0
      /\ LruCache.entries (LruCache.store st2) = [(5, 25)])
  /\ (exists sys' sys'' : LruCache.system nat nat,
        LruCache.step LruCache.two_callers_waiting
          (LruCache.Complete 5 (Raise (UserError "down"))) = Some sys'
        /\ LruCache.step sys' (LruCache.Resume 1) = Some sys''
        /\ LruCache.callers sys'' !! 1
           = Some (LruCache.Done (Raise (UserError "down")))).
Proof.
  assert (Pos : forall n, Some 4 = Some n -> 0 < n) by (intros n [= <-]; lia).
  split.
  - apply (lru_cache_failure_not_cached (Some 4) 5 (UserError "down") 25 Pos).
  - destruct (proj2 (lru_cache_failure_not_cached
                       (V := nat) (Some 4) 5 (UserError "down") 25 Pos)
                    LruCache.two_callers_waiting 0 eq_refl)
      as (sys' & St & _ & _ & W & _).
    destruct (W 1 eq_refl) as (sys'' & R & D).
    exists sys', sys''. auto.
Defined.

Section LruConcurrency.

Import LruCache.

Context {K : Type} `{Countable K} {V : Type}.

Implicit Types (st : cache K V) (sys : system K V) (key : K) (ev : event K V).

(** *** The pending table stays coherent *)

Lemma coherent_fresh st fut :
  coherent st -> is_Some (futures st !! fut) -> fut < next_future st.
Proof.
  intros (_ & Cb & _) [x E]. destruct (decide (fut < next_future st)) as [L|G]; [exact L|].
  rewrite Cb in E by lia. discriminate.
Qed.

Lemma begin_call_coherent st key :
  coherent st -> coherent (begin_call st key).1.
Proof.
  intros C. pose proof C as (Ca & Cb & Cc). unfold begin_call.
  destruct (get (store st) key) as [[v s']|]; [exact C|].
  destruct (pending st !! key) as [fut|] eqn:P; [exact C|].
  unfold coherent. cbn [fst pending futures next_future].
  assert (F : futures st !! next_future st = None) by (apply Cb; lia).
  split; [|split].
  - intros k fut E. destruct (decide (key = k)) as [->|N].
    + rewrite lookup_insert_eq in E. injection E as <-. apply lookup_insert_eq.
    + rewrite lookup_insert_ne in E by exact N.
      rewrite lookup_insert_ne; [apply Ca; exact E|].
      intros <-. apply Ca in E. congruence.
  - intros fut L. rewrite lookup_insert_ne by lia. apply Cb. lia.
  - intros fut k E. destruct (decide (next_future st = fut)) as [<-|N].
    + rewrite lookup_insert_eq in E. injection E as <-. apply lookup_insert_eq.
    + rewrite lookup_insert_ne in E by exact N. apply Cc in E.
      rewrite lookup_insert_ne; [exact E|]. intros <-. congruence.
Qed.

Lemma complete_coherent st st' key r :
  coherent st -> complete st key r = Some st' -> coherent st'.
Proof.
  intros (Ca & Cb & Cc). unfold complete.
  destruct (pending st !! key) as [fut|] eqn:P; [|discriminate].
  destruct (match r with
            | Ok v => ((put (store st) key v).1, key :: accesses st)
            | Raise _ => (store st, accesses st)
            end) as [s' log].
  intros [= <-]. unfold coherent. cbn [pending futures next_future].
  pose proof (Ca _ _ P) as Fk.
  split; [|split].
  - intros k f E. destruct (decide (key = k)) as [->|N].
    + rewrite lookup_delete_eq in E. discriminate.
    + rewrite lookup_delete_ne in E by exact N.
      rewrite lookup_insert_ne; [apply Ca; exact E|].
      intros <-. apply Ca in E. congruence.
  - intros f L. rewrite lookup_insert_ne; [apply Cb; exact L|].
    intros <-. rewrite Cb in Fk by exact L. discriminate.
  - intros f k E. destruct (decide (fut = f)) as [<-|N].
    + rewrite lookup_insert_eq in E. discriminate.
    + rewrite lookup_insert_ne in E by exact N. apply Cc in E.
      rewrite lookup_delete_ne; [exact E|]. intros <-. congruence.
Qed.

Lemma step_coherent sys sys' ev :
  coherent (the_cache sys) -> step sys ev = Some sys' -> coherent (the_cache sys').
Proof.
  intros C. destruct ev as [c key|key r|c|]; simpl.
  - destruct (callers sys !! c); [discriminate|].
    pose proof (begin_call_coherent _ key C) as C'.
    destruct (begin_call (the_cache sys) key) as [st b].
    intros [= <-]. exact C'.
  - destruct (complete (the_cache sys) key r) as [st|] eqn:E; [|discriminate].
    intros [= <-]. eapply complete_coherent; eassumption.
  - destruct (callers sys !! c) as [[fut|]|]; try discriminate.
    destruct (futures (the_cache sys) !! fut) as [[|r]|]; try discriminate.
    intros [= <-]. exact C.
  - intros [= <-]. exact C.
Qed.

Lemma lru_cache_coherent (maxsize : option nat) :
  coherent (lru_cache (K := K) (V := V) maxsize).
Proof.
  unfold coherent, lru_cache. simpl. repeat split; intros; try apply lookup_empty.
  all: rewrite lookup_empty in *; discriminate.
Qed.

(** *** While the computation of a key is outstanding *)

Lemma elem_of_removelast {A} (x : A) (l : list A) : x ∈ removelast l -> x ∈ l.
Proof.
  induction l as [|y l IH]; [intros I; exact I|].
  destruct l as [|z l]; [intros I; inversion I|].
  change (removelast (y :: z :: l)) with (y :: removelast (z :: l)).
  rewrite !(elem_of_cons _ x y). intros [->|I]; [left; reflexivity|right; apply IH; exact I].
Qed.

Lemma put_keeps_out (s : LRUStore K V) key k v :
  k <> key -> key ∉ keys s -> key ∉ keys (put s k v).1.
Proof.
  intros N O I. destruct (put_keys s k v) as [E _]. rewrite E in I. clear E.
  cbv zeta in I.
  assert (I' : key ∈ k :: filter (fun x => x <> k) (keys s)).
  { destruct (max_size s) as [n|]; [|exact I].
    destruct (n <? _); [apply elem_of_removelast; exact I | exact I]. }
  apply elem_of_cons in I' as [->|I']; [congruence|].
  apply list_elem_of_filter in I' as [_ I']. contradiction.
Qed.

Lemma get_keeps_out (s s' : LRUStore K V) key k v :
  get s k = Some (v, s') -> key ∉ keys s -> key ∉ keys s'.
Proof.
  intros G O I. apply get_Some in G as (Ik & E & _). rewrite E in I.
  apply elem_of_cons in I as [->|I]; [contradiction|].
  apply list_elem_of_filter in I as [_ I]. contradiction.
Qed.

Lemma waiting_insert (callers0 : gmap nat (caller (V := V))) (called : list nat)
    (c fut : nat) (x : caller) :
  callers0 !! c = None ->
  (forall c0, c0 ∈ called -> callers0 !! c0 = Some (Waiting fut)) ->
  forall c0, c0 ∈ called -> <[c := x]> callers0 !! c0 = Some (Waiting fut).
Proof.
  intros F W c0 I. rewrite lookup_insert_ne; [apply W; exact I|].
  intros <-. rewrite (W c I) in F. discriminate.
Qed.

Lemma calls_of_other key k c :
  k <> key -> calls_of key [Call (V := V) c k] = [].
Proof. intros N. unfold calls_of. simpl. rewrite decide_False by exact N. reflexivity. Qed.

Lemma calls_of_same key c : calls_of key [Call (V := V) c key] = [c].
Proof. unfold calls_of. simpl. rewrite decide_True by reflexivity. reflexivity. Qed.

Lemma step_outstanding key n0 called sys sys' ev :
  outstanding key n0 called sys ->
  is_complete_of key ev = false ->
  step sys ev = Some sys' ->
  outstanding key n0 (called ++ calls_of key [ev]) sys'.
Proof.
  intros (C & O & P) NC St.
  pose proof (step_coherent _ _ _ C St) as C'.
  unfold outstanding. split; [exact C'|]. clear C'.
  destruct ev as [c k|k r|c|]; simpl in St.
  - (* a call *)
    destruct (callers sys !! c) eqn:F; [discriminate|].
    unfold begin_call in St.
    destruct (get (store (the_cache sys)) k) as [[v s']|] eqn:G.
    + (* hit: the key called is stored, so it is another key *)
      injection St as <-. cbn [the_cache store pending callers].
      assert (N : k <> key).
      { intros ->. apply get_Some in G as (I & _). contradiction. }
      rewrite calls_of_other, app_nil_r by exact N.
      split; [eapply get_keeps_out; eassumption|].
      destruct (pending (the_cache sys) !! key) as [fut|]; [|exact P].
      destruct P as [P1 P2]. split; [exact P1|].
      apply (waiting_insert _ called); assumption.
    + destruct (pending (the_cache sys) !! k) as [f|] eqn:Pk.
      * (* joins the pending call *)
        injection St as <-. cbn [the_cache callers]. split; [exact O|].
        destruct (decide (k = key)) as [->|N].
        -- rewrite calls_of_same. rewrite Pk in P |- *.
           destruct P as [P1 P2]. split; [exact P1|].
           intros c0 I. apply elem_of_app in I as [I|I].
           ++ apply (waiting_insert _ called); assumption.
           ++ apply list_elem_of_singleton in I as ->. apply lookup_insert_eq.
        -- rewrite calls_of_other, app_nil_r by exact N.
           destruct (pending (the_cache sys) !! key) as [fut|]; [|exact P].
           destruct P as [P1 P2]. split; [exact P1|].
           apply (waiting_insert _ called); assumption.
      * (* starts the computation *)
        injection St as <-. cbn [the_cache store pending callers].
        split; [exact O|].
        destruct (decide (k = key)) as [->|N].
        -- rewrite calls_of_same. rewrite Pk in P. destruct P as [-> P].
           rewrite lookup_insert_eq. split.
           ++ unfold invoked in *. cbn [invocations].
              rewrite invoked_app, decide_True by reflexivity. lia.
           ++ intros c0 I. apply list_elem_of_singleton in I as ->.
              apply lookup_insert_eq.
        -- rewrite calls_of_other, app_nil_r by exact N.
           rewrite lookup_insert_ne by exact N.
           assert (Inv : invoked key
                           (mkCache (store (the_cache sys))
                              (<[k := next_future (the_cache sys)]> (pending (the_cache sys)))
                              (<[next_future (the_cache sys) := Running k]>
                                 (futures (the_cache sys)))
                              (S (next_future (the_cache sys)))
                              (hits (the_cache sys)) (misses (the_cache sys))
                              (invocations (the_cache sys) ++ [k])
                              (accesses (the_cache sys)))
                         = invoked key (the_cache sys)).
           { unfold invoked. cbn [invocations].
             rewrite invoked_app, decide_False by exact N. lia. }
           rewrite Inv.
           destruct (pending (the_cache sys) !! key) as [fut|]; [|exact P].
           destruct P as [P1 P2]. split; [exact P1|].
           apply (waiting_insert _ called); assumption.
  - (* the completion of another key *)
    simpl in NC. apply bool_decide_eq_false in NC.
    unfold complete in St.
    destruct (pending (the_cache sys) !! k) as [f|] eqn:Pk; [|discriminate].
    rewrite app_nil_r.
    assert (Keep : key ∉ keys (match r with
                               | Ok v => (put (store (the_cache sys)) k v).1
                               | Raise _ => store (the_cache sys)
                               end)).
    { destruct r as [v|e]; [apply put_keeps_out; assumption | exact O]. }
    destruct r as [v|e]; injection St as <-;
      cbn [the_cache store pending callers];
      (split; [exact Keep|]);
      rewrite lookup_delete_ne by exact NC; exact P.
  - (* a caller resumes: not one of those waiting on the key *)
    destruct (callers sys !! c) as [[f|]|] eqn:F; try discriminate.
    destruct (futures (the_cache sys) !! f) as [[|r]|] eqn:Fu; try discriminate.
    injection St as <-. cbn [the_cache callers]. rewrite app_nil_r.
    split; [exact O|].
    destruct (pending (the_cache sys) !! key) as [fut|] eqn:Pk; [|exact P].
    destruct P as [P1 P2]. split; [exact P1|].
    intros c0 I. rewrite lookup_insert_ne; [apply P2; exact I|].
    intros <-. rewrite (P2 c I) in F. injection F as <-.
    destruct C as (Ca & _). rewrite (Ca _ _ Pk) in Fu. discriminate.
  - (* cache_clear *)
    injection St as <-. cbn [the_cache callers]. rewrite app_nil_r.
    split; [apply not_elem_of_nil|]. exact P.
Qed.

Lemma calls_of_cons key ev (evs : list (event K V)) :
  calls_of key (ev :: evs) = calls_of key [ev] ++ calls_of key evs.
Proof. unfold calls_of. simpl. destruct ev as [c k| | |]; try reflexivity.
  destruct (decide (k = key)); reflexivity.
Qed.

Lemma run_outstanding key n0 (evs : list (event K V)) :
  forall called sys sys',
    outstanding key n0 called sys ->
    forallb (fun ev => negb (is_complete_of key ev)) evs = true ->
    run sys evs = Some sys' ->
    outstanding key n0 (called ++ calls_of key evs) sys'.
Proof.
  induction evs as [|ev evs IH]; intros called sys sys' O NC R.
  - simpl in R. injection R as <-. rewrite app_nil_r. exact O.
  - simpl in NC. apply andb_prop in NC as [NC1 NC2].
    apply negb_true_iff in NC1.
    simpl in R. destruct (step sys ev) as [sys1|] eqn:St; [|discriminate].
    rewrite calls_of_cons, app_assoc.
    eapply IH; [|exact NC2|exact R].
    eapply step_outstanding; eassumption.
Qed.

Lemma elem_of_calls_of key c (evs : list (event K V)) :
  Call c key ∈ evs -> c ∈ calls_of key evs.
Proof.
  intros I. unfold calls_of. apply list_elem_of_omap.
  exists (Call c key). split; [exact I|]. rewrite decide_True by reflexivity.
  reflexivity.
Qed.

(** *** Once the computation has completed *)

Lemma step_settled fut (r : result V) cs resumed sys sys' ev :
  settled fut r cs resumed sys ->
  step sys ev = Some sys' ->
  settled fut r cs (resumed ++ resumes_of [ev]) sys'.
Proof.
  intros (C & F & W & D) St.
  pose proof (step_coherent _ _ _ C St) as C'.
  unfold settled. split; [exact C'|]. clear C'.
  destruct ev as [c k|k r'|c|]; simpl in St.
  - (* a call: a new caller, and at most a new future *)
    destruct (callers sys !! c) eqn:Fc; [discriminate|].
    assert (Fu : futures (begin_call (the_cache sys) k).1 !! fut = Some (Resolved r)).
    { unfold begin_call.
      destruct (get (store (the_cache sys)) k) as [[v s']|]; [exact F|].
      destruct (pending (the_cache sys) !! k); [exact F|].
      cbn [fst futures]. rewrite lookup_insert_ne; [exact F|].
      pose proof (coherent_fresh _ fut C (ex_intro _ _ F)). lia. }
    destruct (begin_call (the_cache sys) k) as [st b].
    injection St as <-. cbn [the_cache callers]. unfold resumes_of. simpl.
    rewrite app_nil_r. split; [exact Fu|].
    assert (Ne : forall c0, c0 ∈ cs -> c <> c0).
    { intros c0 I <-. destruct (W c I) as [E|E]; rewrite E in Fc; discriminate. }
    split.
    + intros c0 I. rewrite lookup_insert_ne by (apply Ne; exact I). apply W. exact I.
    + intros c0 I R. rewrite lookup_insert_ne by (apply Ne; exact I). apply D; assumption.
  - (* a completion: of another future *)
    unfold complete in St.
    destruct (pending (the_cache sys) !! k) as [f|] eqn:Pk; [|discriminate].
    assert (Nf : f <> fut).
    { intros ->. destruct C as (Ca & _). rewrite (Ca _ _ Pk) in F. discriminate. }
    unfold resumes_of. simpl. rewrite app_nil_r.
    destruct r' as [v|e]; injection St as <-; cbn [the_cache futures callers];
      rewrite lookup_insert_ne by exact Nf; auto.
  - (* a caller resumes *)
    destruct (callers sys !! c) as [[f|]|] eqn:Fc; try discriminate.
    destruct (futures (the_cache sys) !! f) as [[|r0]|] eqn:Fu; try discriminate.
    injection St as <-. cbn [the_cache callers]. split; [exact F|].
    assert (Own : c ∈ cs -> r0 = r).
    { intros I. destruct (W c I) as [E|E]; rewrite E in Fc; [|discriminate].
      injection Fc as <-. rewrite F in Fu. congruence. }
    split.
    + intros c0 I. destruct (decide (c = c0)) as [<-|N].
      * right. rewrite lookup_insert_eq, (Own I). reflexivity.
      * rewrite lookup_insert_ne by exact N. apply W. exact I.
    + intros c0 I R. destruct (decide (c = c0)) as [<-|N].
      * rewrite lookup_insert_eq, (Own I). reflexivity.
      * rewrite lookup_insert_ne by exact N. apply D; [exact I|].
        unfold resumes_of in R. simpl in R.
        apply elem_of_app in R as [R|R]; [exact R|].
        apply list_elem_of_singleton in R. congruence.
  - (* cache_clear *)
    injection St as <-. cbn [the_cache callers]. unfold resumes_of. simpl.
    rewrite app_nil_r. auto.
Qed.

Lemma resumes_of_cons ev (evs : list (event K V)) :
  resumes_of (ev :: evs) = resumes_of [ev] ++ resumes_of evs.
Proof. unfold resumes_of. destruct ev; reflexivity. Qed.

Lemma run_settled fut (r : result V) cs (evs : list (event K V)) :
  forall resumed sys sys',
    settled fut r cs resumed sys ->
    run sys evs = Some sys' ->
    settled fut r cs (resumed ++ resumes_of evs) sys'.
Proof.
  induction evs as [|ev evs IH]; intros resumed sys sys' S R.
  - simpl in R. injection R as <-. unfold resumes_of. simpl.
    rewrite app_nil_r. exact S.
  - simpl in R. destruct (step sys ev) as [sys1|] eqn:St; [|discriminate].
    rewrite resumes_of_cons, app_assoc.
    eapply IH; [|exact R]. eapply step_settled; eassumption.
Qed.

Lemma elem_of_resumes_of c (evs : list (event K V)) :
  Resume c ∈ evs -> c ∈ resumes_of evs.
Proof.
  intros I. unfold resumes_of. apply list_elem_of_omap.
  exists (Resume c). split; [exact I | reflexivity].
Qed.

(** The completion of the pending call of [key] settles its waiters. *)
Lemma complete_settles key fut (r : result V) cs sys sys' :
  coherent (the_cache sys) ->
  pending (the_cache sys) !! key = Some fut ->
  (forall c, c ∈ cs -> callers sys !! c = Some (Waiting fut)) ->
  step sys (Complete key r) = Some sys' ->
  settled fut r cs [] sys'.
Proof.
  intros C P W St. pose proof (step_coherent _ _ _ C St) as C'.
  unfold settled. split; [exact C'|].
  simpl in St. unfold complete in St. rewrite P in St.
  destruct r as [v|e]; injection St as <-; cbn [the_cache futures callers];
    rewrite lookup_insert_eq;
    (split; [reflexivity|]); (split; [intros c I; left; apply W; exact I|]);
    intros c _ I; inversion I.
Qed.

End LruConcurrency.

(** C1: take a cache whose store and pending table have no entry for [key],
    and a run in which [K >= 2] callers [cs] all call [key] before any
    computation of [key] completes, whatever else the run interleaves.  Then
    during that run the underlying function is invoked for [key] exactly
    once, and all the callers wait on one future.  When that computation
    completes with [r], a value or a failure, then after any further run each
    of the callers either still waits on that future or has [r]; those that
    were resumed have [r], and those still waiting get [r] when resumed. *)
Theorem lru_cache_concurrent_calls_one_invocation
    {K : Type} `{Countable K} {V : Type}
    (sys0 sysA : LruCache.system K V) (key : K) (cs : list nat)
    (evs : list (LruCache.event K V)) :
  LruCache.coherent (LruCache.the_cache sys0) ->
  key ∉ LruCache.keys (LruCache.store (LruCache.the_cache sys0)) ->
  LruCache.pending (LruCache.the_cache sys0) !! key = None ->
  NoDup cs -> 2 <= length cs ->
  (forall c, c ∈ cs -> LruCache.Call c key ∈ evs) ->
  forallb (fun ev => negb (LruCache.is_complete_of key ev)) evs = true ->
  LruCache.run sys0 evs = Some sysA ->
  exists fut,
    LruCache.invoked key (LruCache.the_cache sysA)
    = S (LruCache.invoked key (LruCache.the_cache sys0))
    /\ LruCache.pending (LruCache.the_cache sysA) !! key = Some fut
    /\ (forall c, c ∈ cs -> LruCache.callers sysA !! c = Some (LruCache.Waiting fut))
    /\ (forall (r : result V) evs' sysB,
          LruCache.run sysA (LruCache.Complete key r :: evs') = Some sysB ->
          (forall c, c ∈ cs ->
             LruCache.callers sysB !! c = Some (LruCache.Waiting fut)
             \/ LruCache.callers sysB !! c = Some (LruCache.Done r))
          /\ (forall c, c ∈ cs -> LruCache.Resume c ∈ evs' ->
                LruCache.callers sysB !! c = Some (LruCache.Done r))
          /\ (forall c, c ∈ cs ->
                LruCache.callers sysB !! c = Some (LruCache.Waiting fut) ->
                exists sysC,
                  LruCache.step sysB (LruCache.Resume c) = Some sysC
                  /\ LruCache.callers sysC !! c = Some (LruCache.Done r))).
Proof.
  intros C O P ND Len Calls NC R.
  assert (O0 : LruCache.outstanding key
                 (LruCache.invoked key (LruCache.the_cache sys0)) [] sys0).
  { unfold LruCache.outstanding. rewrite P. auto. }
  pose proof (run_outstanding key _ evs [] sys0 sysA O0 NC R) as (CA & OA & PA).
  simpl in PA.
  assert (Called : forall c, c ∈ cs -> c ∈ LruCache.calls_of key evs).
  { intros c I. apply elem_of_calls_of. apply Calls. exact I. }
  destruct cs as [|c1 cs']; [simpl in Len; lia|].
  destruct (LruCache.pending (LruCache.the_cache sysA) !! key) as [fut|] eqn:Pk.
  2:{ destruct PA as [E _]. pose proof (Called c1 (list_elem_of_here _ _)) as I.
      rewrite E in I. inversion I. }
  destruct PA as [Inv W]. exists fut. split; [exact Inv|]. split; [reflexivity|].
  assert (WA : forall c, c ∈ c1 :: cs' ->
                 LruCache.callers sysA !! c = Some (LruCache.Waiting fut)).
  { intros c I. apply W. apply Called. exact I. }
  split; [exact WA|].
  intros r evs' sysB RB. simpl in RB.
  destruct (LruCache.complete (LruCache.the_cache sysA) key r) as [stA|] eqn:Co;
    [|discriminate].
  assert (St : LruCache.step sysA (LruCache.Complete key r)
               = Some (LruCache.mkSystem stA (LruCache.callers sysA))).
  { simpl. rewrite Co. reflexivity. }
  pose proof (complete_settles key fut r (c1 :: cs') sysA _ CA Pk WA St) as S0.
  pose proof (run_settled fut r (c1 :: cs') evs' [] _ sysB S0 RB) as (CB & FB & WB & DB).
  split; [exact WB|]. split.
  - intros c I Re. apply DB; [exact I|]. simpl. apply elem_of_resumes_of. exact Re.
  - intros c I Wc. eexists. split.
    + simpl. rewrite Wc, FB. reflexivity.
    + simpl. apply lookup_insert_eq.
Qed.

Lemma lru_cache_concurrent_calls_one_invocation_witness :
  LruCache.invoked 5 (LruCache.the_cache LruCache.three_callers_waiting) = 1
  /\ exists sysB : LruCache.system nat nat,
       LruCache.run LruCache.three_callers_waiting
         [LruCache.Complete 5 (Raise (UserError "down")); LruCache.Resume 1;
          LruCache.Call 3 5; LruCache.Resume 0; LruCache.Resume 2]
       = Some sysB
       /\ LruCache.callers sysB !! 0 = Some (LruCache.Done (Raise (UserError "down")))
       /\ LruCache.callers sysB !! 1 = Some (LruCache.Done (Raise (UserError "down")))
       /\ LruCache.callers sysB !! 2 = Some (LruCache.Done (Raise (UserError "down"))).
Proof.
  destruct (lru_cache_concurrent_calls_one_invocation
              (LruCache.mkSystem (LruCache.lru_cache (Some 4)) ∅)
              LruCache.three_callers_waiting 5 [0; 1; 2]
              LruCache.three_callers_run)
    as (fut & Inv & _ & _ & After).
  - apply lru_cache_coherent.
  - apply not_elem_of_nil.
  - apply lookup_empty.
  - apply (bool_decide_unpack (NoDup [0; 1; 2])). reflexivity.
  - simpl. lia.
  - intros c I. unfold LruCache.three_callers_run.
    apply elem_of_cons in I as [->|I]; [left|].
    apply elem_of_cons in I as [->|I]; [right; right; left|].
    apply list_elem_of_singleton in I as ->. do 5 right. left.
  - reflexivity.
  - reflexivity.
  - split; [exact Inv|].
    eexists. split; [vm_compute; reflexivity|].
    destruct (After (Raise (UserError "down"))
                [LruCache.Resume 1; LruCache.Call 3 5; LruCache.Resume 0;
                 LruCache.Resume 2] _ eq_refl)
      as (_ & Re & _).
    split; [|split]; apply Re.
    + left.
    + do 2 right. left.
    + right. left.
    + left.
    + do 2 right. left.
    + do 3 right. left.
Defined.

(** * Further properties *)

(** ** reduce *)

Section ReduceFold.

Import Reduce.

Variable function : binop.

(** The fold over two stretches of items is the fold over the second,
    started from the outcome of the first. *)
Lemma fold_iter_app (xs ys : list pyobj) :
  forall (value : pyobj) (tr : trace),
    fold_iter function value (xs ++ ys) tr
    = match fold_iter function value xs tr with
      | (Ok value', tr') => fold_iter function value' ys tr'
      | (Raise e, tr') => (Raise e, tr')
      end.
Proof.
  induction xs as [|x xs IH]; intros value tr.
  - reflexivity.
  - simpl. unfold bind, call. destruct (function value x) as [v'|e].
    + apply IH.
    + reflexivity.
Qed.

End ReduceFold.

Lemma fold_iter_returning (g : pyobj -> pyobj -> pyobj) (items : list pyobj) :
  forall (value : pyobj) (tr : Reduce.trace),
    exists calls,
      Reduce.fold_iter (Reduce.returning g) value items tr
      = (Ok (foldl g value items), tr ++ calls)
      /\ calls.*2 = items.
Proof.
  induction items as [|head rest IH]; intros value tr.
  - exists []. simpl. rewrite app_nil_r. auto.
  - destruct (IH (g value head) (tr ++ [(value, head)])) as (calls & E & C).
    exists ((value, head) :: calls). split.
    + simpl. unfold Reduce.bind, Reduce.call, Reduce.returning at 1.
      rewrite E. rewrite <- app_assoc. reflexivity.
    + rewrite fmap_cons, C. reflexivity.
Qed.

(** X1: for a function that returns on every call, [reduce] with an
    [initial] is the left fold of the function over the items, and the
    function is called once per item, with the items as second arguments in
    their order. *)
Theorem reduce_is_left_fold
    (g : pyobj -> pyobj -> pyobj) (iterable : list pyobj) (initial : pyobj)
    (tr : Reduce.trace) :
  initial <> Reduce.__REDUCE_SENTINEL ->
  exists calls,
    Reduce.reduce (Reduce.returning g) iterable initial tr
    = (Ok (foldl g initial iterable), tr ++ calls)
    /\ calls.*2 = iterable.
Proof.
  intros N. rewrite reduce_with_initial by (apply py_is_sentinel_false; exact N).
  apply fold_iter_returning.
Qed.

Lemma reduce_is_left_fold_witness :
  exists calls,
    Reduce.reduce (Reduce.returning Reduce.keep_last)
      [PInt 1; PInt 2; PInt 3] (PInt 0) []
    = (Ok (PInt 3), [] ++ calls)
    /\ calls.*2 = [PInt 1; PInt 2; PInt 3].
Proof.
  apply (reduce_is_left_fold Reduce.keep_last [PInt 1; PInt 2; PInt 3] (PInt 0) []).
  discriminate.
Defined.

(** X2: an [initial] is an item put in front of the others: [reduce] with
    [initial] over the items is [reduce] with no [initial] over [initial]
    followed by the items, for every function, failing or not. *)
Theorem reduce_initial_is_prepended
    (function : Reduce.binop) (iterable : list pyobj) (initial : pyobj)
    (tr : Reduce.trace) :
  initial <> Reduce.__REDUCE_SENTINEL ->
  Reduce.reduce function iterable initial tr
  = Reduce.reduce_no_initial function (initial :: iterable) tr.
Proof.
  intros N. unfold Reduce.reduce_no_initial.
  rewrite reduce_without_initial.
  apply reduce_with_initial. apply py_is_sentinel_false. exact N.
Qed.

Lemma reduce_initial_is_prepended_witness :
  Reduce.reduce Reduce.add [PInt 1] (PInt 23) []
  = Reduce.reduce_no_initial Reduce.add [PInt 23; PInt 1] [].
Proof.
  apply (reduce_initial_is_prepended Reduce.add [PInt 1] (PInt 23) []).
  discriminate.
Defined.

(** X3: the first failure of the function ends [reduce]: when the items
    [before] reduce to [value] and the function raises [e] on [value] and the
    next item, [reduce] raises [e], that call is the last one logged, and the
    items [after] are never passed to the function. *)
Theorem reduce_stops_at_first_failure
    (function : Reduce.binop) (before after : list pyobj)
    (initial value item : pyobj) (e : exn) (tr tr' : Reduce.trace) :
  initial <> Reduce.__REDUCE_SENTINEL ->
  Reduce.reduce function before initial tr = (Ok value, tr') ->
  function value item = Raise e ->
  Reduce.reduce function (before ++ item :: after) initial tr
  = (Raise e, tr' ++ [(value, item)]).
Proof.
  intros N B F.
  rewrite reduce_with_initial in * by (apply py_is_sentinel_false; exact N).
  rewrite fold_iter_app, B. simpl. unfold Reduce.bind, Reduce.call.
  rewrite F. reflexivity.
Qed.

Lemma reduce_stops_at_first_failure_witness :
  Reduce.reduce Reduce.unlucky ([PInt 1; PInt 2] ++ PInt 13 :: [PInt 4; PInt 5])
    (PInt 0) []
  = (Raise (UserError "unlucky"),
     [(PInt 0, PInt 1); (PInt 1, PInt 2)] ++ [(PInt 2, PInt 13)]).
Proof.
  apply (reduce_stops_at_first_failure Reduce.unlucky [PInt 1; PInt 2]
           [PInt 4; PInt 5] (PInt 0) (PInt 2) (PInt 13) (UserError "unlucky") []
           [(PInt 0, PInt 1); (PInt 1, PInt 2)]).
  - discriminate.
  - reflexivity.
  - reflexivity.
Defined.

(** X4: [reduce] can be resumed: when the items [xs] reduce to [value], the
    reduction of [xs] followed by [ys] is the reduction of [ys] started from
    [value], log included, provided [value] is not the sentinel object, which
    [reduce] would take for a missing [initial]. *)
Theorem reduce_in_two_steps
    (function : Reduce.binop) (xs ys : list pyobj)
    (initial value : pyobj) (tr tr' : Reduce.trace) :
  initial <> Reduce.__REDUCE_SENTINEL ->
  value <> Reduce.__REDUCE_SENTINEL ->
  Reduce.reduce function xs initial tr = (Ok value, tr') ->
  Reduce.reduce function (xs ++ ys) initial tr
  = Reduce.reduce function ys value tr'.
Proof.
  intros N N' B.
  rewrite !reduce_with_initial in * by (apply py_is_sentinel_false; assumption).
  rewrite fold_iter_app, B. reflexivity.
Qed.

Lemma reduce_in_two_steps_witness :
  Reduce.reduce Reduce.add ([PInt 1; PInt 2] ++ [PInt 3; PInt 4]) (PInt 0) []
  = Reduce.reduce Reduce.add [PInt 3; PInt 4] (PInt 3)
      [(PInt 0, PInt 1); (PInt 1, PInt 2)].
Proof.
  apply (reduce_in_two_steps Reduce.add [PInt 1; PInt 2] [PInt 3; PInt 4]
           (PInt 0) (PInt 3) [] [(PInt 0, PInt 1); (PInt 1, PInt 2)]).
  - discriminate.
  - discriminate.
  - reflexivity.
Defined.

(** ** cached_property *)

(** X5: a getter that fails is not remembered.  While the getter raises [e]
    and leaves the instance as it is, each of [n] accesses in a row raises
    [e] and invokes the getter again; the slot stays empty. *)
Theorem cached_property_failure_not_stored
    (self : CachedProp.CachedProperty) (e : exn) (n : nat) :
  forall w : CachedProp.world,
    CachedProp.attributes w !! CachedProp._name self = None ->
    CachedProp.__wrapped__ self (CachedProp.attributes w)
    = (Raise e, CachedProp.attributes w) ->
    CachedProp.accesses self n w
    = (replicate n (Raise e),
       CachedProp.mkWorld (CachedProp.attributes w) (CachedProp.getter_calls w + n)).
Proof.
  induction n as [|n IH]; intros w E G.
  - simpl. rewrite Nat.add_0_r. destruct w. reflexivity.
  - simpl. unfold CachedProp.access, CachedProp.__get__. rewrite E, G.
    rewrite (IH (CachedProp.mkWorld (CachedProp.attributes w)
                   (S (CachedProp.getter_calls w)))) by assumption.
    simpl. repeat f_equal. lia.
Qed.

Lemma cached_property_failure_not_stored_witness :
  CachedProp.accesses
    (CachedProp.__init__ (CachedProp.failing_getter (UserError "down")) "answer")
    3 (CachedProp.mkWorld ∅ 0)
  = ([Raise (UserError "down"); Raise (UserError "down"); Raise (UserError "down")],
     CachedProp.mkWorld ∅ 3).
Proof.
  apply (cached_property_failure_not_stored
           (CachedProp.__init__ (CachedProp.failing_getter (UserError "down")) "answer")
           (UserError "down") 3 (CachedProp.mkWorld ∅ 0)); reflexivity.
Defined.

(** X6: [__get__] does not overwrite the slot.  When the getter returns
    [value] but has assigned [obj] to the attribute itself, the access returns
    [value] and the slot keeps [obj]; the next access awaits [obj], with no
    invocation of the getter. *)
Theorem cached_property_keeps_stored_object
    (self : CachedProp.CachedProperty) (w : CachedProp.world)
    (value obj : pyobj) (attrs : gmap string pyobj) :
  CachedProp.attributes w !! CachedProp._name self = None ->
  CachedProp.__wrapped__ self (CachedProp.attributes w) = (Ok value, attrs) ->
  attrs !! CachedProp._name self = Some obj ->
  CachedProp.access self w
  = (Ok value, CachedProp.mkWorld attrs (S (CachedProp.getter_calls w)))
  /\ CachedProp.access self
       (CachedProp.mkWorld attrs (S (CachedProp.getter_calls w)))
     = (CachedProp.await obj,
        CachedProp.mkWorld attrs (S (CachedProp.getter_calls w))).
Proof.
  intros E G S. split.
  - unfold CachedProp.access, CachedProp.__get__. rewrite E, G, S. reflexivity.
  - unfold CachedProp.access. simpl. rewrite S. reflexivity.
Qed.

Lemma cached_property_keeps_stored_object_witness :
  CachedProp.access
    (CachedProp.__init__ (CachedProp.storing_getter "answer" (PInt 1) (PInt 2)) "answer")
    (CachedProp.mkWorld ∅ 0)
  = (Ok (PInt 2), CachedProp.mkWorld (<["answer" := PInt 1]> ∅) 1)
  /\ CachedProp.access
       (CachedProp.__init__ (CachedProp.storing_getter "answer" (PInt 1) (PInt 2)) "answer")
       (CachedProp.mkWorld (<["answer" := PInt 1]> ∅) 1)
     = (Raise (TypeError "object can't be used in 'await' expression"),
        CachedProp.mkWorld (<["answer" := PInt 1]> ∅) 1).
Proof.
  apply (cached_property_keeps_stored_object
           (CachedProp.__init__ (CachedProp.storing_getter "answer" (PInt 1) (PInt 2))
              "answer")
           (CachedProp.mkWorld ∅ 0) (PInt 2) (PInt 1) (<["answer" := PInt 1]> ∅));
    reflexivity.
Defined.

Lemma step_populated (self : CachedProp.CachedProperty)
    (st st' : CachedProp.loop_state) (ev : CachedProp.event) (obj : pyobj) :
  CachedProp.l_attributes st !! CachedProp._name self = Some obj ->
  CachedProp.step self st ev = Some st' ->
  CachedProp.l_attributes st' = CachedProp.l_attributes st
  /\ CachedProp.l_getter_calls st' = CachedProp.l_getter_calls st.
Proof.
  intros P. destruct ev as [t|t|t r]; simpl; rewrite ?P.
  - destruct (CachedProp.l_tasks st !! t) as [[| | | |]|]; try discriminate.
    intros [= <-]. auto.
  - destruct (CachedProp.l_tasks st !! t) as [[| | | |]|]; try discriminate;
      intros [= <-]; auto.
  - destruct (CachedProp.l_tasks st !! t) as [[| | | |]|]; try discriminate.
    destruct r; intros [= <-]; auto.
Qed.

(** X7: a filled slot is final.  Whatever reads are looked up, started or
    completed afterwards, in any order, the attributes of the instance stay
    as they are and the getter is not invoked again. *)
Theorem cached_property_populated_is_final
    (self : CachedProp.CachedProperty) (evs : list CachedProp.event) (obj : pyobj) :
  forall st st' : CachedProp.loop_state,
    CachedProp.l_attributes st !! CachedProp._name self = Some obj ->
    CachedProp.run self st evs = Some st' ->
    CachedProp.l_attributes st' = CachedProp.l_attributes st
    /\ CachedProp.l_getter_calls st' = CachedProp.l_getter_calls st.
Proof.
  induction evs as [|ev evs IH]; intros st st' P R.
  - simpl in R. injection R as <-. auto.
  - simpl in R. destruct (CachedProp.step self st ev) as [st1|] eqn:St; [|discriminate].
    destruct (step_populated self st st1 ev obj P St) as [A C].
    destruct (IH st1 st') as [A' C']; [rewrite A; exact P | exact R |].
    split; congruence.
Qed.

Lemma cached_property_populated_is_final_witness :
  CachedProp.run
    (CachedProp.__init__ (CachedProp.const_getter (PInt 7)) "answer")
    (CachedProp.mkLoop (<["answer" := CachedProp.AwaitableValue (PInt 7)]> ∅)
       [CachedProp.Suspended; CachedProp.Unread; CachedProp.Created] 1)
    [CachedProp.Lookup 1; CachedProp.GetterDone 0 (Ok (PInt 8));
     CachedProp.Start 2; CachedProp.Start 1]
  = Some (CachedProp.mkLoop (<["answer" := CachedProp.AwaitableValue (PInt 7)]> ∅)
            [CachedProp.Finished (Ok (PInt 8)); CachedProp.Finished (Ok (PInt 7));
             CachedProp.Finished (Ok (CachedProp.AwaitableValue (PInt 7)))] 1)
  /\ CachedProp.l_attributes
       (CachedProp.mkLoop (<["answer" := CachedProp.AwaitableValue (PInt 7)]> ∅)
          [CachedProp.Finished (Ok (PInt 8)); CachedProp.Finished (Ok (PInt 7));
           CachedProp.Finished (Ok (CachedProp.AwaitableValue (PInt 7)))] 1)
     = <["answer" := CachedProp.AwaitableValue (PInt 7)]> ∅
  /\ CachedProp.l_getter_calls
       (CachedProp.mkLoop (<["answer" := CachedProp.AwaitableValue (PInt 7)]> ∅)
          [CachedProp.Finished (Ok (PInt 8)); CachedProp.Finished (Ok (PInt 7));
           CachedProp.Finished (Ok (CachedProp.AwaitableValue (PInt 7)))] 1)
     = 1.
Proof.
  split; [reflexivity|].
  exact (cached_property_populated_is_final
           (CachedProp.__init__ (CachedProp.const_getter (PInt 7)) "answer")
           [CachedProp.Lookup 1; CachedProp.GetterDone 0 (Ok (PInt 8));
            CachedProp.Start 2; CachedProp.Start 1]
           (CachedProp.AwaitableValue (PInt 7))
           (CachedProp.mkLoop (<["answer" := CachedProp.AwaitableValue (PInt 7)]> ∅)
              [CachedProp.Suspended; CachedProp.Unread; CachedProp.Created] 1)
           (CachedProp.mkLoop (<["answer" := CachedProp.AwaitableValue (PInt 7)]> ∅)
              [CachedProp.Finished (Ok (PInt 8)); CachedProp.Finished (Ok (PInt 7));
               CachedProp.Finished (Ok (CachedProp.AwaitableValue (PInt 7)))] 1)
           eq_refl eq_refl).
Defined.

(** X8: a coroutine of [__get__] made while the slot was empty and first
    run after it was filled returns what the slot holds, the
    [AwaitableValue] object, and not the value: of two reads looked up on an
    empty slot, the first run to its end gets [value], and the second, started
    afterwards, gets [AwaitableValue value]; the getter is invoked once. *)
Theorem cached_property_late_start_gets_wrapper
    (self : CachedProp.CachedProperty) (attrs : gmap string pyobj) (value : pyobj) :
  attrs !! CachedProp._name self = None ->
  CachedProp.run self (CachedProp.fresh_loop attrs 2)
    [CachedProp.Lookup 0; CachedProp.Lookup 1; CachedProp.Start 0;
     CachedProp.GetterDone 0 (Ok value); CachedProp.Start 1]
  = Some (CachedProp.mkLoop
            (<[CachedProp._name self := CachedProp.AwaitableValue value]> attrs)
            [CachedProp.Finished (Ok value);
             CachedProp.Finished (Ok (CachedProp.AwaitableValue value))]
            1).
Proof.
  intros E. simpl. rewrite E. simpl. rewrite E. simpl. rewrite E. simpl.
  rewrite E. simpl. rewrite lookup_insert_eq. reflexivity.
Qed.

Lemma cached_property_late_start_gets_wrapper_witness :
  CachedProp.run
    (CachedProp.__init__ (CachedProp.const_getter (PInt 7)) "answer")
    (CachedProp.fresh_loop ∅ 2)
    [CachedProp.Lookup 0; CachedProp.Lookup 1; CachedProp.Start 0;
     CachedProp.GetterDone 0 (Ok (PInt 7)); CachedProp.Start 1]
  = Some (CachedProp.mkLoop
            (<["answer" := CachedProp.AwaitableValue (PInt 7)]> ∅)
            [CachedProp.Finished (Ok (PInt 7));
             CachedProp.Finished (Ok (CachedProp.AwaitableValue (PInt 7)))]
            1).
Proof.
  apply (cached_property_late_start_gets_wrapper
           (CachedProp.__init__ (CachedProp.const_getter (PInt 7)) "answer")
           ∅ (PInt 7)).
  reflexivity.
Defined.

(** X9: [__set_name__] fixes the slot.  On an owner without [__dict__] it
    raises [TypeError].  Otherwise the descriptor made from a getter named
    [getter_name] and bound to [name] stores the value under [name], and what
    the instance holds under [getter_name] is left as the getter left it. *)
Theorem cached_property_set_name_fixes_slot
    (g : CachedProp.getter) (getter_name owner_name name : string)
    (w : CachedProp.world) (value : pyobj) (attrs : gmap string pyobj) :
  CachedProp.__set_name__ (CachedProp.__init__ g getter_name) false owner_name name
  = Raise (TypeError ("'cached_property' requires '__dict__' on '"
                      +:+ owner_name +:+ "' to store " +:+ name))
  /\ (CachedProp.attributes w !! name = None ->
      g (CachedProp.attributes w) = (Ok value, attrs) ->
      attrs !! name = None ->
      getter_name <> name ->
      exists self,
        CachedProp.__set_name__ (CachedProp.__init__ g getter_name) true owner_name name
        = Ok self
        /\ CachedProp.access self w
           = (Ok value,
              CachedProp.mkWorld (<[name := CachedProp.AwaitableValue value]> attrs)
                (S (CachedProp.getter_calls w)))
        /\ (<[name := CachedProp.AwaitableValue value]> attrs) !! getter_name
           = attrs !! getter_name).
Proof.
  split; [reflexivity|].
  intros E G E' N. eexists. split; [reflexivity|]. split.
  - apply access_first; assumption.
  - apply lookup_insert_ne. congruence.
Qed.

Lemma cached_property_set_name_fixes_slot_witness :
  exists self,
    CachedProp.__set_name__
      (CachedProp.__init__ (CachedProp.const_getter (PInt 7)) "compute") true
      "Owner" "answer" = Ok self
    /\ CachedProp.access self (CachedProp.mkWorld ∅ 0)
       = (Ok (PInt 7),
          CachedProp.mkWorld (<["answer" := CachedProp.AwaitableValue (PInt 7)]> ∅) 1)
    /\ (<["answer" := CachedProp.AwaitableValue (PInt 7)]> ∅ : gmap string pyobj)
         !! "compute" = (∅ : gmap string pyobj) !! "compute".
Proof.
  apply (cached_property_set_name_fixes_slot
           (CachedProp.const_getter (PInt 7)) "compute" "Owner" "answer"
           (CachedProp.mkWorld ∅ 0) (PInt 7) ∅).
  - reflexivity.
  - reflexivity.
  - reflexivity.
  - discriminate.
Defined.

(** ** merge *)

Section HeapFunctions.

Import Heapq.

Variable w : entry -> nat.

Lemma total_cons (e : entry) (heap : list entry) :
  total w (e :: heap) = w e + total w heap.
Proof. reflexivity. Qed.

Lemma total_insert (heap : list entry) :
  forall (i : nat) (x y : entry),
    heap !! i = Some y ->
    total w (<[i := x]> heap) + w y = total w heap + w x.
Proof.
  induction heap as [|e heap IH]; intros i x y L; [discriminate|].
  destruct i as [|i].
  - injection L as ->. unfold total. simpl. lia.
  - simpl in L. specialize (IH i x y L). unfold total in *. simpl. lia.
Qed.

Lemma index_Some (heap : list entry) (i : nat) :
  i < length heap -> exists e, heap !! i = Some e /\ index heap i = Some (Ok e).
Proof.
  intros L. destruct (lookup_lt_is_Some_2 heap i L) as [e E].
  exists e. unfold index. rewrite E. auto.
Qed.

(** Moving the hole from [pos] to [q], where the entry [e] was. *)
Lemma total_move_hole (heap : list entry) (pos q : nat) (e newitem : entry) :
  pos < length heap -> heap !! q = Some e -> q <> pos ->
  total w (<[q := newitem]> (<[pos := e]> heap)) = total w (<[pos := newitem]> heap).
Proof.
  intros Lp Lq N.
  destruct (lookup_lt_is_Some_2 heap pos Lp) as [y Ey].
  pose proof (total_insert heap pos e y Ey) as T1.
  pose proof (total_insert heap pos newitem y Ey) as T2.
  assert (Eq : <[pos := e]> heap !! q = Some e)
    by (rewrite list_lookup_insert_ne by congruence; exact Lq).
  pose proof (total_insert _ q newitem e Eq) as T3.
  lia.
Qed.

Lemma _siftdown_loop_S (fuel : nat) (heap : list entry) (startpos pos : nat)
    (newitem : entry) :
  _siftdown_loop (S fuel) heap startpos pos newitem
  = if negb (startpos <? pos) then rret (heap, pos)
    else rbind (index heap ((pos - 1) / 2)) (fun parent =>
         rbind (lift (entry_lt newitem parent)) (fun b =>
         if (b : bool)
         then _siftdown_loop fuel (<[pos := parent]> heap) startpos ((pos - 1) / 2) newitem
         else rret (heap, pos))).
Proof. reflexivity. Qed.

Lemma _siftdown_loop_ends (fuel : nat) :
  forall (heap : list entry) (startpos pos : nat) (newitem : entry),
    pos <= fuel -> pos < length heap ->
    exists res,
      _siftdown_loop fuel heap startpos pos newitem = Some res
      /\ forall h p, res = Ok (h, p) ->
           length h = length heap /\ p < length h
           /\ total w (<[p := newitem]> h) = total w (<[pos := newitem]> heap).
Proof.
  induction fuel as [|fuel IH]; intros heap startpos pos newitem Lf Ll.
  - assert (pos = 0) as -> by lia. simpl.
    eexists. split; [reflexivity|]. intros h p [= <- <-]. auto.
  - rewrite _siftdown_loop_S. destruct (startpos <? pos) eqn:C; cbn [negb].
    2:{ eexists. split; [reflexivity|]. intros h p [= <- <-]. auto. }
    apply Nat.ltb_lt in C.
    assert (Lp : (pos - 1) / 2 < pos).
    { pose proof (Nat.Div0.div_le_upper_bound (pos - 1) 2 (pos - 1)). lia. }
    destruct (index_Some heap ((pos - 1) / 2)) as (parent & Ep & Ip); [lia|].
    rewrite Ip. unfold lift. cbn [rbind].
    destruct (entry_lt newitem parent) as [[|]|e]; cbn [rbind].
    + destruct (IH (<[pos := parent]> heap) startpos ((pos - 1) / 2) newitem)
        as (res & E & P); [lia | rewrite length_insert; lia |].
      exists res. split; [exact E|]. intros h p R.
      destruct (P h p R) as (P1 & P2 & P3). rewrite length_insert in P1.
      split; [exact P1|]. split; [exact P2|].
      rewrite P3. apply total_move_hole; [exact Ll | exact Ep | lia].
    + eexists. split; [reflexivity|]. intros h p [= <- <-]. auto.
    + eexists. split; [reflexivity|]. discriminate.
Qed.

Lemma _siftdown_ends (heap : list entry) (startpos pos : nat) :
  pos < length heap ->
  exists res, _siftdown heap startpos pos = Some res /\ keeps w heap res.
Proof.
  intros L. unfold _siftdown.
  destruct (index_Some heap pos L) as (newitem & En & In). rewrite In. cbn [rbind].
  destruct (_siftdown_loop_ends pos heap startpos pos newitem (Nat.le_refl _) L)
    as (res & E & P).
  rewrite E. destruct res as [[h p]|e]; cbn [rbind].
  - eexists. split; [reflexivity|]. intros h' [= <-].
    destruct (P h p eq_refl) as (P1 & P2 & P3).
    rewrite length_insert. split; [exact P1|].
    cbn [fst snd]. rewrite P3. rewrite list_insert_id by exact En. reflexivity.
  - eexists. split; [reflexivity|]. discriminate.
Qed.

Lemma _siftup_loop_S (fuel : nat) (heap : list entry) (endpos pos : nat) :
  _siftup_loop (S fuel) heap endpos pos
  = if negb (2 * pos + 1 <? endpos) then rret (heap, pos)
    else rbind (if 2 * pos + 1 + 1 <? endpos
                then rbind (index heap (2 * pos + 1)) (fun l =>
                     rbind (index heap (2 * pos + 1 + 1)) (fun r =>
                     rbind (lift (entry_lt l r)) (fun b =>
                     rret (if (b : bool) then 2 * pos + 1 else 2 * pos + 1 + 1))))
                else rret (2 * pos + 1)) (fun childpos' =>
         rbind (index heap childpos') (fun child =>
         _siftup_loop fuel (<[pos := child]> heap) endpos childpos')).
Proof. reflexivity. Qed.

Lemma _siftup_loop_0 (heap : list entry) (endpos pos : nat) :
  _siftup_loop 0 heap endpos pos
  = if negb (2 * pos + 1 <? endpos) then rret (heap, pos) else None.
Proof. reflexivity. Qed.

Lemma _siftup_loop_ends (fuel : nat) :
  forall (heap : list entry) (endpos pos : nat) (newitem : entry),
    endpos <= pos + fuel -> endpos <= length heap -> pos < length heap ->
    exists res,
      _siftup_loop fuel heap endpos pos = Some res
      /\ forall h p, res = Ok (h, p) ->
           length h = length heap /\ p < length h
           /\ total w (<[p := newitem]> h) = total w (<[pos := newitem]> heap).
Proof.
  induction fuel as [|fuel IH]; intros heap endpos pos newitem Lf Le Ll.
  - rewrite _siftup_loop_0.
    destruct (2 * pos + 1 <? endpos) eqn:C; cbn [negb].
    + apply Nat.ltb_lt in C. lia.
    + eexists. split; [reflexivity|]. intros h p [= <- <-]. auto.
  - rewrite _siftup_loop_S.
    destruct (2 * pos + 1 <? endpos) eqn:C; cbn [negb].
    2:{ eexists. split; [reflexivity|]. intros h p [= <- <-]. auto. }
    apply Nat.ltb_lt in C.
    (* the child to move up, if the comparison returns *)
    assert (Child : (exists e, (if 2 * pos + 1 + 1 <? endpos
                then rbind (index heap (2 * pos + 1)) (fun l =>
                     rbind (index heap (2 * pos + 1 + 1)) (fun r =>
                     rbind (lift (entry_lt l r)) (fun b =>
                     rret (if (b : bool) then 2 * pos + 1 else 2 * pos + 1 + 1))))
                else rret (2 * pos + 1)) = Some (Raise e))
            \/ (exists c, (if 2 * pos + 1 + 1 <? endpos
                then rbind (index heap (2 * pos + 1)) (fun l =>
                     rbind (index heap (2 * pos + 1 + 1)) (fun r =>
                     rbind (lift (entry_lt l r)) (fun b =>
                     rret (if (b : bool) then 2 * pos + 1 else 2 * pos + 1 + 1))))
                else rret (2 * pos + 1)) = Some (Ok c)
                 /\ pos < c < endpos)).
    { destruct (2 * pos + 1 + 1 <? endpos) eqn:C2.
      - apply Nat.ltb_lt in C2.
        destruct (index_Some heap (2 * pos + 1)) as (l & _ & Il); [lia|].
        destruct (index_Some heap (2 * pos + 1 + 1)) as (r & _ & Ir); [lia|].
        rewrite Il. cbn [rbind]. rewrite Ir. cbn [rbind]. unfold lift.
        destruct (entry_lt l r) as [[|]|e]; cbn [rbind].
        + right. eexists. split; [reflexivity|]. lia.
        + right. eexists. split; [reflexivity|]. lia.
        + left. eexists. reflexivity.
      - right. eexists. split; [reflexivity|]. lia. }
    destruct Child as [[e ->]|(c & -> & Lc)]; cbn [rbind].
    { eexists. split; [reflexivity|]. discriminate. }
    destruct (index_Some heap c) as (child & Ec & Ic); [lia|].
    rewrite Ic. cbn [rbind].
    destruct (IH (<[pos := child]> heap) endpos c newitem)
      as (res & E & P); [lia | rewrite length_insert; lia | rewrite length_insert; lia |].
    exists res. split; [exact E|]. intros h p R.
    destruct (P h p R) as (P1 & P2 & P3). rewrite length_insert in P1.
    split; [exact P1|]. split; [exact P2|].
    rewrite P3. apply total_move_hole; [exact Ll | exact Ec | lia].
Qed.

Lemma _siftup_ends (heap : list entry) (pos : nat) :
  pos < length heap ->
  exists res, _siftup heap pos = Some res /\ keeps w heap res.
Proof.
  intros L. unfold _siftup.
  destruct (index_Some heap pos L) as (newitem & En & In). rewrite In. cbn [rbind].
  destruct (_siftup_loop_ends (length heap) heap (length heap) pos newitem)
    as (res & E & P); [lia | lia | exact L |].
  rewrite E. destruct res as [[h p]|e]; cbn [rbind].
  2:{ eexists. split; [reflexivity|]. discriminate. }
  destruct (P h p eq_refl) as (P1 & P2 & P3). cbn [fst snd].
  destruct (_siftdown_ends (<[p := newitem]> h) pos p) as (res & E' & K);
    [rewrite length_insert; exact P2|].
  exists res. split; [exact E'|]. intros h' R.
  destruct (K h' R) as (K1 & K2). rewrite length_insert in K1.
  split; [congruence|]. rewrite K2, P3.
  rewrite list_insert_id by exact En. reflexivity.
Qed.

Lemma heapify_ends (x : list entry) :
  exists res, heapify x = Some res /\ keeps w x res.
Proof.
  unfold heapify.
  assert (G : forall (l : list nat) (acc : R (list entry)),
             Forall (fun i => i < length x) l ->
             (exists res, acc = Some res /\ keeps w x res) ->
             exists res,
               foldl (fun acc i => rbind acc (fun h => _siftup h i)) acc l = Some res
               /\ keeps w x res).
  { induction l as [|i l IH]; intros acc F A; [exact A|].
    apply Forall_cons in F as [Fi F]. simpl. apply IH; [exact F|].
    destruct A as (res & -> & K). destruct res as [h|e]; cbn [rbind].
    - destruct (K h eq_refl) as (K1 & K2).
      destruct (_siftup_ends h i) as (res & E & K'); [lia|].
      exists res. split; [exact E|]. intros h' R.
      destruct (K' h' R) as (K1' & K2'). split; congruence.
    - eexists. split; [reflexivity|]. discriminate. }
  apply G.
  - apply Forall_forall. intros i I. apply list_elem_of_In, in_rev, list_elem_of_In, elem_of_seq in I.
    pose proof (Nat.Div0.div_le_upper_bound (length x) 2 (length x)).
    pose proof (Nat.Div0.mul_div_le (length x) 2).
    destruct (length x); [simpl in I; lia|]. lia.
  - eexists. split; [reflexivity|]. intros h [= <-]. auto.
Qed.

Lemma heapreplace_ends (heap : list entry) (item : entry) :
  exists res,
    heapreplace heap item = Some res
    /\ forall returnitem h, res = Ok (returnitem, h) ->
         heap !! 0 = Some returnitem
         /\ length h = length heap
         /\ total w h + w returnitem = total w heap + w item.
Proof.
  unfold heapreplace, index. destruct (heap !! 0) as [returnitem|] eqn:E0.
  2:{ eexists. split; [reflexivity|]. discriminate. }
  cbn [rbind rret].
  assert (L : 0 < length heap) by (apply lookup_lt_is_Some_1; eauto).
  destruct (_siftup_ends (<[0 := item]> heap) 0) as (res & E & K);
    [rewrite length_insert; exact L|].
  rewrite E. destruct res as [h|e]; cbn [rbind].
  - eexists. split; [reflexivity|]. intros r h' [= <- <-].
    destruct (K h eq_refl) as (K1 & K2). rewrite length_insert in K1.
    split; [reflexivity|]. split; [exact K1|].
    rewrite K2. apply total_insert. exact E0.
  - eexists. split; [reflexivity|]. discriminate.
Qed.

Lemma heappop_ends (heap : list entry) :
  exists res,
    heappop heap = Some res
    /\ forall returnitem h, res = Ok (returnitem, h) ->
         heap !! 0 = Some returnitem
         /\ S (length h) = length heap
         /\ total w h + w returnitem = total w heap.
Proof.
  unfold heappop. destruct (last heap) as [lastelt|] eqn:El.
  2:{ eexists. split; [reflexivity|]. discriminate. }
  apply last_Some in El as [front ->].
  rewrite removelast_last.
  assert (T : total w (front ++ [lastelt]) = total w front + w lastelt).
  { unfold total. rewrite sum_list_with_app. simpl. lia. }
  destruct front as [|returnitem front].
  - eexists. split; [reflexivity|]. intros r h [= <- <-].
    split; [reflexivity|]. split; [reflexivity|]. rewrite T. reflexivity.
  - destruct (_siftup_ends (<[0 := lastelt]> (returnitem :: front)) 0)
      as (res & E & K); [simpl; lia|].
    rewrite E. destruct res as [h|e]; cbn [rbind].
    + eexists. split; [reflexivity|]. intros r h' [= <- <-].
      destruct (K h eq_refl) as (K1 & K2).
      split; [reflexivity|]. split.
      * rewrite K1. simpl. rewrite length_app. simpl. lia.
      * rewrite K2, T. unfold total. simpl. lia.
    + eexists. split; [reflexivity|]. discriminate.
Qed.

End HeapFunctions.

Section MergeEnds.

Import Heapq.

(** [pull_head] either finds the tail empty or moves on by one item. *)
Lemma pull_head_cases (itr : _KeyIter) :
  (tail itr = [] /\ pull_head itr = Ok (false, itr))
  \/ (exists h t hk,
        tail itr = h :: t
        /\ pull_head itr
           = Ok (true, mkKeyIter (oid itr) h t (reverse itr) hk (key itr))).
Proof.
  unfold pull_head. destruct (tail itr) as [|h t]; [left; auto|].
  right. simpl. destruct (key itr) as [[f|f]|]; simpl; eauto.
Qed.

Lemma sum_one (l : list Z) : sum_list_with one l = length l.
Proof. induction l as [|x l IH]; simpl; [reflexivity|]. rewrite IH. reflexivity. Qed.

Lemma sum_is_item (v : Z) (l : list Z) :
  sum_list_with (is_item v) l = length (filter (fun x => x = v) l).
Proof.
  induction l as [|x l IH]; [reflexivity|]. simpl. rewrite IH. unfold is_item.
  destruct (decide (x = v)) as [E|N].
  - rewrite filter_cons_True by exact E. reflexivity.
  - rewrite filter_cons_False by exact N. reflexivity.
Qed.

Lemma held_one_positive (e : entry) : 0 < held one e.
Proof. unfold held, stream_of. simpl. apply Nat.lt_0_succ. Qed.

Lemma merge_loop_S (fuel : nat) (iter_heap : list entry) (out : list Z) :
  merge_loop (S fuel) iter_heap out
  = match iter_heap !! 0 with
    | None => Some (out, IndexError "list index out of range")
    | Some (itr, idx) =>
        match pull_head itr with
        | Raise e => Some (out ++ [head itr], e)
        | Ok (true, itr') =>
            match heapreplace iter_heap (itr', idx) with
            | None => None
            | Some (Raise e) => Some (out ++ [head itr], e)
            | Some (Ok (_, heap')) => merge_loop fuel heap' (out ++ [head itr])
            end
        | Ok (false, _) =>
            match heappop iter_heap with
            | None => None
            | Some (Raise e) => Some (out ++ [head itr], e)
            | Some (Ok (_, heap')) => merge_loop fuel heap' (out ++ [head itr])
            end
        end
    end.
Proof. reflexivity. Qed.

(** The loop of [merge] ends, and what it yields was held by the heap. *)
Lemma merge_loop_ends (m : Z -> nat) (fuel : nat) :
  forall (iter_heap : list entry) (out : list Z),
    total (held one) iter_heap < fuel ->
    exists out' e,
      merge_loop fuel iter_heap out = Some (out', e)
      /\ sum_list_with m out'
         <= sum_list_with m out + total (held m) iter_heap.
Proof.
  induction fuel as [|fuel IH]; intros iter_heap out Lf; [lia|].
  rewrite merge_loop_S.
  destruct (iter_heap !! 0) as [[itr idx]|] eqn:E0.
  2:{ eexists _, _. split; [reflexivity|]. lia. }
  assert (Top : forall m', held m' (itr, idx) <= total (held m') iter_heap).
  { intros m'. unfold total. apply (sum_list_with_in (itr, idx)).
    eapply list_elem_of_lookup_2. exact E0. }
  assert (Out : sum_list_with m (out ++ [head itr])
                = sum_list_with m out + m (head itr)).
  { rewrite sum_list_with_app. simpl. lia. }
  assert (Hd : forall m', m' (head itr) <= held m' (itr, idx)).
  { intros m'. unfold held, stream_of. simpl. lia. }
  destruct (pull_head_cases itr) as [[Et ->]|(h & t & hk & Et & ->)].
  - (* the iterator is exhausted: it leaves the heap *)
    destruct (heappop_ends (held one) iter_heap) as (res & E & P1).
    destruct (heappop_ends (held m) iter_heap) as (res' & E' & Pm).
    rewrite E in E'. injection E' as <-. rewrite E.
    destruct res as [[ret heap']|e].
    + destruct (P1 ret heap' eq_refl) as (R0 & _ & T1).
      destruct (Pm ret heap' eq_refl) as (_ & _ & Tm).
      assert (Rt : Some ret = Some (itr, idx)) by exact (eq_trans (eq_sym R0) E0).
      injection Rt as ->.
      pose proof (held_one_positive (itr, idx)).
      destruct (IH heap' (out ++ [head itr])) as (out' & e & El & B); [lia|].
      exists out', e. split; [exact El|]. rewrite Out in B.
      assert (held m (itr, idx) = m (head itr)).
      { unfold held, stream_of. simpl. rewrite Et. simpl. lia. }
      lia.
    + eexists _, _. split; [reflexivity|]. rewrite Out.
      pose proof (Top m). pose proof (Hd m). lia.
  - (* the iterator has a next item: it is put back *)
    set (itr' := mkKeyIter (oid itr) h t (reverse itr) hk (key itr)).
    assert (Step : forall m', held m' (itr, idx) = m' (head itr) + held m' (itr', idx)).
    { intros m'. unfold held, stream_of. simpl. rewrite Et. reflexivity. }
    destruct (heapreplace_ends (held one) iter_heap (itr', idx)) as (res & E & P1).
    destruct (heapreplace_ends (held m) iter_heap (itr', idx)) as (res' & E' & Pm).
    rewrite E in E'. injection E' as <-. rewrite E.
    destruct res as [[ret heap']|e].
    + destruct (P1 ret heap' eq_refl) as (R0 & _ & T1).
      destruct (Pm ret heap' eq_refl) as (_ & _ & Tm).
      assert (Rt : Some ret = Some (itr, idx)) by exact (eq_trans (eq_sym R0) E0).
      injection Rt as ->.
      pose proof (Step one) as S1. pose proof (Step m) as Sm.
      unfold one at 2 in S1.
      destruct (IH heap' (out ++ [head itr])) as (out' & e & El & B); [lia|].
      exists out', e. split; [exact El|]. rewrite Out in B. lia.
    + eexists _, _. split; [reflexivity|]. rewrite Out.
      pose proof (Top m). pose proof (Hd m). lia.
Qed.

(** What [from_iters] yields: one object per iterable that has an item, in
    order, holding the items of that iterable. *)
Lemma from_iters_streams (iterables : list (list Z)) (reverse : bool)
    (key : option keyfn) :
  forall n its,
    from_iters iterables reverse key n = Ok its ->
    stream_of <$> its = non_empty iterables.
Proof.
  induction iterables as [|it rest IH]; intros n its E.
  - injection E as <-. reflexivity.
  - unfold non_empty. simpl in E. destruct it as [|x t]; simpl in E.
    + rewrite filter_cons_False by tauto. eapply IH. exact E.
    + rewrite filter_cons_True by discriminate.
      destruct (call_key key x) as [aw|e]; [|discriminate].
      destruct (await_key aw) as [hk|e]; [|discriminate].
      destruct (from_iters rest reverse key (S n)) as [its'|e] eqn:R; [|discriminate].
      injection E as <-. rewrite fmap_cons. f_equal. eapply IH. exact R.
Qed.

Lemma concat_non_empty (iterables : list (list Z)) :
  concat (non_empty iterables) = concat iterables.
Proof.
  unfold non_empty. induction iterables as [|it rest IH]; [reflexivity|].
  destruct it as [|x t].
  - rewrite filter_cons_False by tauto. exact IH.
  - rewrite filter_cons_True by discriminate. simpl. rewrite IH. reflexivity.
Qed.

Lemma total_imap (m : Z -> nat) (its : list _KeyIter) :
  forall f : nat -> _KeyIter -> entry,
    (forall i itr, fst (f i itr) = itr) ->
    total (held m) (imap f its) = sum_list_with m (concat (stream_of <$> its)).
Proof.
  induction its as [|itr its IH]; intros f F; [reflexivity|].
  rewrite fmap_cons. cbn [concat imap]. rewrite sum_list_with_app.
  rewrite <- (IH (f ∘ S)) by (intros; apply F).
  unfold total. cbn [sum_list_with]. unfold held at 1. rewrite F. reflexivity.
Qed.

Lemma total_enumerate (m : Z -> nat) (its : list _KeyIter) (reverse : bool) :
  total (held m) (enumerate_heap its reverse)
  = sum_list_with m (concat (stream_of <$> its)).
Proof. unfold enumerate_heap. apply total_imap. reflexivity. Qed.

(** A heap of one entry or none is a heap as it is. *)
Lemma heapify_short (x : list entry) :
  length x <= 1 -> heapify x = Some (Ok x).
Proof.
  intros L. unfold heapify.
  destruct x as [|e [|e' x]]; [reflexivity | reflexivity | simpl in L; lia].
Qed.

End MergeEnds.

(** X10: [merge] ends on every input, whatever [key] and [reverse] are, by
    the regular end or by an exception, and what it has yielded by then was
    in the input: it yields no more items than the iterables hold, and no
    item more often than they hold it. *)
Theorem merge_ends_within_input
    (iterables : list (list Z)) (key : option Heapq.keyfn) (reverse : bool) :
  exists out ending,
    Heapq.merge iterables key reverse = Some (out, ending)
    /\ length out <= length (concat iterables)
    /\ forall v, length (filter (fun x => x = v) out)
                 <= length (filter (fun x => x = v) (concat iterables)).
Proof.
  assert (G : exists out ending,
             Heapq.merge iterables key reverse = Some (out, ending)
             /\ forall m, sum_list_with m out <= sum_list_with m (concat iterables)).
  { unfold Heapq.merge.
    destruct (Heapq.from_iters iterables reverse key 0) as [its|e] eqn:F.
    2:{ eexists _, _. split; [reflexivity|]. intros m. simpl. lia. }
    pose proof (from_iters_streams iterables reverse key 0 its F) as St.
    assert (T : forall m, Heapq.total (Heapq.held m) (Heapq.enumerate_heap its reverse)
                          = sum_list_with m (concat iterables)).
    { intros m. rewrite total_enumerate, St, concat_non_empty. reflexivity. }
    destruct (heapify_ends (Heapq.held Heapq.one) (Heapq.enumerate_heap its reverse))
      as (res & E & K1).
    rewrite E. destruct res as [iter_heap|e].
    2:{ eexists _, _. split; [reflexivity|]. intros m. simpl. lia. }
    assert (Tm : forall m, Heapq.total (Heapq.held m) iter_heap
                           = sum_list_with m (concat iterables)).
    { intros m.
      destruct (heapify_ends (Heapq.held m) (Heapq.enumerate_heap its reverse))
        as (res' & E' & Km).
      rewrite E in E'. injection E' as <-.
      destruct (Km iter_heap eq_refl) as [_ ->]. apply T. }
    destruct (1 <? length iter_heap).
    - assert (Lf : Heapq.total (Heapq.held Heapq.one) iter_heap
                   < S (length (concat iterables))).
      { rewrite Tm, sum_one. lia. }
      assert (L : forall m, exists out' e,
                   Heapq.merge_loop (S (length (concat iterables))) iter_heap []
                   = Some (out', e)
                   /\ sum_list_with m out' <= sum_list_with m (concat iterables)).
      { intros m. destruct (merge_loop_ends m _ iter_heap [] Lf) as (out' & e & El & B).
        exists out', e. split; [exact El|]. rewrite Tm in B. simpl in B. lia. }
      destruct (L Heapq.one) as (out' & e & El & _). rewrite El.
      eexists _, _. split; [reflexivity|]. intros m.
      destruct (L m) as (out'' & e'' & El' & B). rewrite El in El'.
      injection El' as <- <-. exact B.
    - destruct iter_heap as [|[itr idx] rest].
      + eexists _, _. split; [reflexivity|]. intros m. simpl. lia.
      + eexists _, _. split; [reflexivity|]. intros m. rewrite <- Tm.
        apply (sum_list_with_in (itr, idx) (Heapq.held m)). left. }
  destruct G as (out & ending & E & B). exists out, ending.
  split; [exact E|]. split.
  - rewrite <- !sum_one. apply B.
  - intros v. rewrite <- !sum_is_item. apply B.
Qed.

Lemma from_iters_async (f : Z -> Z) (reverse : bool) (iterables : list (list Z)) :
  forall n, exists its,
    Heapq.from_iters iterables reverse (Some (Heapq.AsyncKey f)) n = Ok its.
Proof.
  induction iterables as [|it rest IH]; intros n.
  - exists []. reflexivity.
  - destruct it as [|x t]; simpl.
    + apply IH.
    + destruct (IH (S n)) as (its & ->). eexists. reflexivity.
Qed.

(** The branch of [merge] for a heap of one entry or none. *)
Lemma merge_short (iterables : list (list Z)) (key : option Heapq.keyfn)
    (reverse : bool) (its : list Heapq._KeyIter) :
  Heapq.from_iters iterables reverse key 0 = Ok its ->
  length its <= 1 ->
  Heapq.merge iterables key reverse = Some (concat iterables, Ok tt).
Proof.
  intros F L. unfold Heapq.merge. rewrite F.
  pose proof (from_iters_streams iterables reverse key 0 its F) as St.
  rewrite <- concat_non_empty, <- St.
  rewrite heapify_short by (unfold Heapq.enumerate_heap; rewrite length_imap; exact L).
  destruct its as [|itr [|itr' its]]; [reflexivity | | simpl in L; lia].
  simpl. rewrite app_nil_r. reflexivity.
Qed.

(** X11: [merge] comes to its regular end only when at most one of the
    iterables has an item, and then it has yielded the items of that
    iterable, as they came: with two iterables or more that have items, the
    end is an exception, whatever [key] and [reverse] are. *)
Theorem merge_regular_end_only_single_stream
    (iterables : list (list Z)) (key : option Heapq.keyfn) (reverse : bool)
    (out : list Z) :
  Heapq.merge iterables key reverse = Some (out, Ok tt) ->
  length (Heapq.non_empty iterables) <= 1 /\ out = concat iterables.
Proof.
  intros M.
  destruct (Heapq.from_iters iterables reverse key 0) as [its|e] eqn:F.
  2:{ unfold Heapq.merge in M. rewrite F in M. discriminate. }
  pose proof (from_iters_streams iterables reverse key 0 its F) as St.
  assert (L : length its <= 1).
  { unfold Heapq.merge in M. rewrite F in M.
    destruct (heapify_ends (Heapq.held Heapq.one) (Heapq.enumerate_heap its reverse))
      as (res & E & K).
    rewrite E in M. destruct res as [iter_heap|e]; [|discriminate].
    destruct (K iter_heap eq_refl) as [Len _].
    unfold Heapq.enumerate_heap in Len. rewrite length_imap in Len.
    destruct (1 <? length iter_heap) eqn:C.
    - destruct (Heapq.merge_loop _ iter_heap []) as [[o e]|]; discriminate.
    - apply Nat.ltb_ge in C. lia. }
  split.
  - rewrite <- St, length_fmap. exact L.
  - rewrite (merge_short iterables key reverse its F L) in M. congruence.
Qed.

Lemma merge_regular_end_only_single_stream_witness :
  length (Heapq.non_empty [[1; 2; 3]; []]%Z) <= 1
  /\ [1; 2; 3]%Z = concat [[1; 2; 3]; []]%Z.
Proof.
  apply (merge_regular_end_only_single_stream [[1; 2; 3]; []]%Z
           (Some Heapq.async_identity) false [1; 2; 3]%Z).
  reflexivity.
Defined.

(** X12: when every iterable is empty, [merge] yields nothing and comes to
    its regular end, for every [key], [None] and plain callables included:
    [key] is not called. *)
Theorem merge_of_empty_iterables
    (iterables : list (list Z)) (key : option Heapq.keyfn) (reverse : bool) :
  Forall (fun it => it = []) iterables ->
  Heapq.merge iterables key reverse = Some ([], Ok tt).
Proof.
  intros A.
  assert (C : concat iterables = []).
  { induction A as [|it rest -> _ IH]; [reflexivity|]. exact IH. }
  assert (F : forall n, Heapq.from_iters iterables reverse key n = Ok []).
  { clear C. induction A as [|it rest -> _ IH]; intros n; [reflexivity|].
    simpl. apply IH. }
  rewrite <- C. apply (merge_short iterables key reverse [] (F 0)). simpl. lia.
Qed.

Lemma merge_of_empty_iterables_witness :
  Heapq.merge [[]; []; []] (Some Heapq.sync_identity) true = Some ([], Ok tt).
Proof.
  apply (merge_of_empty_iterables [[]; []; []] (Some Heapq.sync_identity) true).
  repeat constructor.
Defined.

(** X13: with an [async] key, when at most one of the iterables has an item,
    [merge] yields the items of that iterable in the order they come, sorted
    or not, and comes to its regular end; the key is computed for the first
    item only. *)
Theorem merge_passes_single_stream
    (iterables : list (list Z)) (f : Z -> Z) (reverse : bool) :
  length (Heapq.non_empty iterables) <= 1 ->
  Heapq.merge iterables (Some (Heapq.AsyncKey f)) reverse
  = Some (concat iterables, Ok tt).
Proof.
  intros L. destruct (from_iters_async f reverse iterables 0) as (its & F).
  apply (merge_short _ _ _ its F).
  rewrite <- (length_fmap Heapq.stream_of).
  rewrite (from_iters_streams _ _ _ _ _ F). exact L.
Qed.

Lemma merge_passes_single_stream_witness :
  Heapq.merge [[]; [3; 1; 2]; []]%Z (Some Heapq.async_negate) true
  = Some ([3; 1; 2]%Z, Ok tt).
Proof.
  apply (merge_passes_single_stream [[]; [3; 1; 2]; []]%Z (fun x => (- x)%Z) true).
  vm_compute. lia.
Defined.

(** X14: with an [async] key, two iterables of one item each are merged in
    the order of their keys, or in the opposite order under [reverse], and
    then the end is an [IndexError]: once the heap is empty the loop reads
    [iter_heap[0]] again. *)
Theorem merge_two_items_then_IndexError
    (f : Z -> Z) (x y : Z) (reverse : bool) :
  Heapq.merge [[x]; [y]] (Some (Heapq.AsyncKey f)) reverse
  = Some (if xorb reverse (f x <? f y)%Z then [x; y] else [y; x],
          Raise (IndexError "list index out of range")).
Proof.
  destruct reverse; cbv -[Z.ltb]; destruct (f x <? f y)%Z; reflexivity.
Qed.

(** X15: [from_iters] skips the iterables that have no item.  When it
    returns, it has made one object per iterable that has an item, in their
    order and numbered in a row, each holding the items of its iterable, the
    first as [head], together with [reverse] and [key] as passed; with an
    [async] key it always returns, and [head_key] is the awaited key of the
    head. *)
Theorem from_iters_skips_empty
    (iterables : list (list Z)) (reverse : bool) (key : option Heapq.keyfn) :
  forall (n : nat) (its : list Heapq._KeyIter),
    Heapq.from_iters iterables reverse key n = Ok its ->
    Heapq.stream_of <$> its = Heapq.non_empty iterables
    /\ Heapq.oid <$> its = seq n (length its)
    /\ Forall (fun itr => Heapq.reverse itr = reverse /\ Heapq.key itr = key) its
    /\ (forall f, key = Some (Heapq.AsyncKey f) ->
          Forall (fun itr => Heapq.head_key itr = Heapq.KPlain (f (Heapq.head itr)))
                 its).
Proof.
  induction iterables as [|it rest IH]; intros n its E.
  - injection E as <-. repeat split; constructor.
  - unfold Heapq.non_empty. simpl in E. destruct it as [|x t]; simpl in E.
    + rewrite filter_cons_False by tauto. apply IH. exact E.
    + rewrite filter_cons_True by discriminate.
      destruct (Heapq.call_key key x) as [aw|e] eqn:Ck; [|discriminate].
      destruct (Heapq.await_key aw) as [hk|e] eqn:Aw; [|discriminate].
      destruct (Heapq.from_iters rest reverse key (S n)) as [its'|e] eqn:R;
        [|discriminate].
      injection E as <-. destruct (IH (S n) its' R) as (I1 & I2 & I3 & I4).
      split; [rewrite fmap_cons; f_equal; exact I1|].
      split; [rewrite fmap_cons; simpl; f_equal; exact I2|].
      split; [constructor; [split; reflexivity | exact I3]|].
      intros f ->. constructor; [|apply (I4 f); reflexivity].
      simpl in Ck. injection Ck as <-. simpl in Aw. injection Aw as <-. reflexivity.
Qed.

Lemma from_iters_skips_empty_witness :
  Heapq.stream_of
    <$> [Heapq.mkKeyIter 0 1%Z [2%Z] false (Heapq.KPlain 1%Z)
           (Some Heapq.async_identity);
         Heapq.mkKeyIter 1 3%Z [] false (Heapq.KPlain 3%Z)
           (Some Heapq.async_identity)]
  = Heapq.non_empty [[]; [1; 2]; []; [3]]%Z.
Proof.
  apply (from_iters_skips_empty [[]; [1; 2]; []; [3]]%Z false
           (Some Heapq.async_identity) 0).
  reflexivity.
Defined.

(** ** cached_property, concurrent reads *)

Lemma step_getter_calls (self : CachedProp.CachedProperty)
    (st st' : CachedProp.loop_state) (ev : CachedProp.event) :
  CachedProp.step self st ev = Some st' ->
  CachedProp.l_getter_calls st'
  + sum_list_with CachedProp.not_started (CachedProp.l_tasks st')
  <= CachedProp.l_getter_calls st
     + sum_list_with CachedProp.not_started (CachedProp.l_tasks st).
Proof.
  destruct ev as [t|t|t r]; simpl.
  - destruct (CachedProp.l_tasks st !! t) as [[| | | |]|] eqn:T; try discriminate.
    destruct (CachedProp.l_attributes st !! CachedProp._name self);
      intros [= <-]; simpl;
      match goal with
      | |- context [<[t := ?a]> _] =>
          pose proof (sum_list_with_insert CachedProp.not_started _ t a _ T) as I
      end; simpl in I; lia.
  - destruct (CachedProp.l_tasks st !! t) as [[| | | |]|] eqn:T; try discriminate.
    + intros [= <-]. simpl.
      match goal with
      | |- context [<[t := ?a]> _] =>
          pose proof (sum_list_with_insert CachedProp.not_started _ t a _ T) as I
      end. simpl in I. lia.
    + destruct (CachedProp.l_attributes st !! CachedProp._name self);
        intros [= <-]; simpl;
        match goal with
        | |- context [<[t := ?a]> _] =>
            pose proof (sum_list_with_insert CachedProp.not_started _ t a _ T) as I
        end; simpl in I; lia.
  - destruct (CachedProp.l_tasks st !! t) as [[| | | |]|] eqn:T; try discriminate.
    destruct r as [value|e]; intros [= <-]; simpl;
      match goal with
      | |- context [<[t := ?a]> _] =>
          pose proof (sum_list_with_insert CachedProp.not_started _ t a _ T) as I
      end; simpl in I; lia.
Qed.

Lemma run_getter_calls (self : CachedProp.CachedProperty)
    (evs : list CachedProp.event) :
  forall st st' : CachedProp.loop_state,
    CachedProp.run self st evs = Some st' ->
    CachedProp.l_getter_calls st'
    + sum_list_with CachedProp.not_started (CachedProp.l_tasks st')
    <= CachedProp.l_getter_calls st
       + sum_list_with CachedProp.not_started (CachedProp.l_tasks st).
Proof.
  induction evs as [|ev evs IH]; intros st st' R.
  - simpl in R. injection R as <-. lia.
  - simpl in R. destruct (CachedProp.step self st ev) as [st1|] eqn:St; [|discriminate].
    pose proof (step_getter_calls self st st1 ev St).
    pose proof (IH st1 st' R). lia.
Qed.

Lemma not_started_fresh (k : nat) :
  sum_list_with CachedProp.not_started (replicate k CachedProp.Unread) = k.
Proof. induction k as [|k IH]; simpl; [reflexivity|]. rewrite IH. reflexivity. Qed.

(** X16: a read invokes the getter at most once.  After any run of [k]
    reads of one instance, in any order and with any outcomes of the
    getters, the getter has been invoked at most [k] times. *)
Theorem cached_property_getter_once_per_read
    (self : CachedProp.CachedProperty) (attrs : gmap string pyobj) (k : nat)
    (evs : list CachedProp.event) (st' : CachedProp.loop_state) :
  CachedProp.run self (CachedProp.fresh_loop attrs k) evs = Some st' ->
  CachedProp.l_getter_calls st' <= k.
Proof.
  intros R. pose proof (run_getter_calls self evs _ st' R) as B.
  unfold CachedProp.fresh_loop in B. simpl in B.
  rewrite not_started_fresh in B. lia.
Qed.

Lemma cached_property_getter_once_per_read_witness :
  CachedProp.l_getter_calls
    (CachedProp.mkLoop (<["answer" := CachedProp.AwaitableValue (PInt 7)]> ∅)
       [CachedProp.Finished (Ok (PInt 7)); CachedProp.Suspended;
        CachedProp.Finished (Ok (PInt 7))] 2) <= 3.
Proof.
  apply (cached_property_getter_once_per_read
           (CachedProp.__init__ (CachedProp.const_getter (PInt 7)) "answer")
           ∅ 3
           [CachedProp.Lookup 0; CachedProp.Start 0; CachedProp.Lookup 1;
            CachedProp.Start 1; CachedProp.GetterDone 0 (Ok (PInt 7));
            CachedProp.Lookup 2; CachedProp.Start 2]).
  reflexivity.
Defined.
